(** * Origin's random value generation (origin/random.hpp)

    A shallow embedding of the distributions, the default-distribution
    facility and the random generation algorithms of origin/random.hpp,
    with the properties of the specification stated over it.

    Conventions of the embedding.
    - A C++ type that the facility dispatches on is a term of [type].
    - A distribution object is a term of [dist]: one constructor per class
      template of the header, whose arguments are the template type
      arguments followed by the data members.
    - A call [d(eng)] mutates the engine and may fail to produce a value (an
      ill-formed instantiation, an exception); it is a computation in the
      monad [rand A := Engine -> option (A * Engine)].
    - The standard library's engines and distributions are an interface
      ([Std_random]), of which the standard fixes only the contract. *)

From stdpp Require Import base list option numbers.
From Stdlib Require Import ZArith QArith Qcanon Lia.

Set Default Proof Using "Type".
#[local] Set Warnings "-register-all".
#[local] Open Scope nat_scope.

(** ** Types *)

(** The integer types of [std::is_integral] other than [bool]. *)
Inductive integer_type : Set :=
  | char | signed_char | unsigned_char
  | short | unsigned_short
  | int | unsigned_int
  | long | unsigned_long
  | long_long | unsigned_long_long.

Inductive floating_type : Set := float | double | long_double.

(** Type descriptors. [T_class s a V] is a class type for which
    [Sequence<T>()] answers [s], [Associative_container<T>()] answers [a]
    and whose [Value_type<T>] is [V]; [T_other n] is any other type. *)
Inductive type : Set :=
  | T_bool
  | T_integer (i : integer_type)
  | T_floating (f : floating_type)
  | basic_string (C : type)
  | tuple (Args : list type)
  | T_class (s a : bool) (V : type)
  | T_other (n : nat).

(** [std::size_t], the [Size_type] of the standard containers. *)
Definition size_t : type := T_integer unsigned_long.

(** Modelled from the spec: the type alias [Size_type<T>] of
    origin/concepts.hpp (not among the sources), the "non-negative integer"
    type of a size. *)
Definition Size_type (T : type) : type := size_t.

(** Modelled from the spec: the type alias [Value_type<T>] of
    origin/concepts.hpp (not among the sources), "the sequence's element
    type"; a type without elements has none. *)
Definition Value_type (T : type) : option type :=
  match T with
  | basic_string C => Some C
  | T_class _ _ V => Some V
  | _ => None
  end.

(** *** [std::numeric_limits] (LP64: 8-bit [char], 32-bit [int], 64-bit
    [long], plain [char] signed) *)

Definition is_signed (i : integer_type) : bool :=
  match i with
  | char | signed_char | short | int | long | long_long => true
  | unsigned_char | unsigned_short | unsigned_int
  | unsigned_long | unsigned_long_long => false
  end.

Definition digits (i : integer_type) : Z :=
  match i with
  | char | signed_char => 7
  | unsigned_char => 8
  | short => 15
  | unsigned_short => 16
  | int => 31
  | unsigned_int => 32
  | long | long_long => 63
  | unsigned_long | unsigned_long_long => 64
  end.

Definition integer_max (i : integer_type) : Z := 2 ^ digits i - 1.

Definition integer_min (i : integer_type) : Z :=
  if is_signed i then - 2 ^ digits i else 0.

Definition numeric_limits_max (T : type) : Z :=
  match T with
  | T_bool => 1
  | T_integer i => integer_max i
  | _ => 0
  end.

Definition numeric_limits_min (T : type) : Z :=
  match T with
  | T_integer i => integer_min i
  | _ => 0
  end.

(** The largest finite value of a binary floating-point format with [p]
    digits of precision and largest exponent [emax]. *)
Definition float_max (p emax : Z) : Qc :=
  Q2Qc (inject_Z ((2 ^ p - 1) * 2 ^ (emax - p))).

Definition floating_max (f : floating_type) : Qc :=
  match f with
  | float => float_max 24 128
  | double => float_max 53 1024
  | long_double => float_max 64 16384
  end.

(** [numeric_limits<T>::lowest()] of a floating-point type. *)
Definition floating_lowest (f : floating_type) : Qc := (- floating_max f)%Qc.

(** [size_t] arithmetic wraps around modulo [2 ^ 64]. *)
Definition size_wrap (z : Z) : Z := z mod 2 ^ 64.

(** *** Concept predicates *)

(** Modelled from the spec: the concept predicate [Integral<T>()] of
    origin/concepts.hpp, a header that is not among the sources; the
    "integral" category of the dispatch rules, [bool] and the integer
    types. *)
Definition Integral (T : type) : bool :=
  match T with
  | T_bool | T_integer _ => true
  | _ => false
  end.

(** Modelled from the spec: the concept predicate [Floating_point<T>()] of
    origin/concepts.hpp (not among the sources); the "floating-point"
    category. *)
Definition Floating_point (T : type) : bool :=
  match T with
  | T_floating _ => true
  | _ => false
  end.

(** Modelled from the spec: the concept predicate [Arithmetic<T>()] of
    origin/concepts.hpp (not among the sources); the integral and the
    floating-point types. *)
Definition Arithmetic (T : type) : bool := Integral T || Floating_point T.

(** Modelled from the spec: the concept predicate [Sequence<T>()] of
    origin/concepts.hpp (not among the sources), the "sequence-like"
    category. For a class type it is what its descriptor records; "a string
    is technically a sequence of characters". *)
Definition Sequence (T : type) : bool :=
  match T with
  | basic_string _ => true
  | T_class s _ _ => s
  | _ => false
  end.

(** Modelled from the spec: the concept predicate
    [Associative_container<T>()] of origin/concepts.hpp (not among the
    sources); for a class type, what its descriptor records. *)
Definition Associative_container (T : type) : bool :=
  match T with
  | T_class _ a _ => a
  | _ => false
  end.

(** ** Values *)

(** Generated values. [V_real q] is a finite floating-point value and
    [V_nan] a floating-point NaN; [V_object T args] is an object of class
    type [T] constructed from [args]; [V_iterator c k] is the iterator [k]
    steps after [c.begin()], where [c] is the identity of a container. *)
Inductive value : Set :=
  | V_bool (b : bool)
  | V_int (z : Z)
  | V_real (q : Qc)
  | V_nan
  | V_seq (xs : list value)
  | V_tuple (xs : list value)
  | V_object (T : type) (args : list value)
  | V_iterator (c : N) (k : Z).

(** Value initialisation [T{}]. *)
Fixpoint value_init (T : type) : value :=
  match T with
  | T_bool => V_bool false
  | T_integer _ => V_int 0
  | T_floating _ => V_real 0
  | basic_string _ => V_seq []
  | tuple Args => V_tuple (map value_init Args)
  | T_class _ _ _ => V_seq []
  | T_other _ => V_object T []
  end.

(** ** Distributions *)

(** A container passed by reference: its identity and its elements. *)
Record container : Set := { address : N; elements : list value }.

(** The distribution objects. [zipf_distribution] is an empty class in the
    header, with no call operator and no equality, and has no objects
    here. *)
Inductive dist : Set :=
  | uniform_int_distribution (T : type) (a b : Z)
  | uniform_real_distribution (T : type) (a b : Qc)
  | bernoulli_distribution (p : Qc)
  | single_value_distribution (value : value)
  | adapted_distribution (Result : type) (dist : dist)
  | random_sequence_distribution (Seq : type) (size gen : dist)
  | random_string_distribution (Str : type) (size gen : dist)
  | random_iterator_distribution (cont : N) (a b : Z)
  | random_tuple_generator (dists : list dist).

(** ** Random engines and the standard distributions

    The engine is the caller's; a distribution borrows it for one call. The
    standard fixes the result range of [std::uniform_int_distribution] for
    parameters [a <= b], not the algorithm. *)
Class Std_random : Type := {
  Engine : Type;
  (** [std::uniform_int_distribution<T>(a, b)(eng)] *)
  uniform_int : Z → Z → Engine → Z * Engine;
  uniform_int_range a b eng :
    (a ≤ b)%Z → (a ≤ (uniform_int a b eng).1 ≤ b)%Z;
  (** [std::uniform_real_distribution<T>(a, b)(eng)] *)
  uniform_real : Qc → Qc → Engine → Qc * Engine;
  (** [std::bernoulli_distribution(p)(eng)] *)
  bernoulli : Qc → Engine → bool * Engine;
}.

(** A linear congruential engine ([std::minstd_rand]'s recurrence) with the
    distributions computed from one step of it each. *)
Definition minstd_step (x : Z) : Z := (48271 * x) mod 2147483647.

Definition minstd_uniform_int (a b x : Z) : Z * Z :=
  let x' := minstd_step x in (a + x' mod (b - a + 1), x')%Z.

Definition minstd_uniform_real (a b : Qc) (x : Z) : Qc * Z :=
  let x' := minstd_step x in
  (a + (b - a) * Q2Qc (x' # 2147483647), x')%Qc.

Definition minstd_bernoulli (p : Qc) (x : Z) : bool * Z :=
  let x' := minstd_step x in
  (bool_decide (Q2Qc (x' # 2147483647) < p)%Qc, x').

(** ** Computations that draw from an engine *)

Definition rand (E A : Type) : Type := E → option (A * E).

Section rand.
Context {E : Type}.

Definition rand_ret {A} (x : A) : rand E A := λ eng, Some (x, eng).

Definition rand_bind {A B} (m : rand E A) (k : A → rand E B) : rand E B :=
  λ eng, match m eng with
         | Some (x, eng') => k x eng'
         | None => None
         end.

(** No value: an ill-formed instantiation or an exception. *)
Definition rand_fail {A} : rand E A := λ _, None.
End rand.

Declare Scope rand_scope.
Delimit Scope rand_scope with rand.
Notation "'let*' x ':=' m 'in' k" := (rand_bind m (λ x, k))
  (at level 10, x name, m at level 100, k at level 200) : rand_scope.
Open Scope rand_scope.

(** ** Algorithms *)

Section algorithms.
Context {E A : Type}.

(** [generate_random(first, last, eng, gen)]: iterators are positions in
    the storage [mem]; [*first = gen(eng)] overwrites one position. The
    loop runs until [first] meets [last]; [fuel] bounds its iterations.
    The embedding is that of the code for a valid range,
    [first <= last <= length mem]; on any other range the code leaves the
    storage, and nothing is stated about it. *)
Fixpoint generate_random (fuel : nat) (first last : nat) (mem : list A)
    (gen : rand E A) : rand E (list A) :=
  match fuel with
  | O => rand_fail
  | S fuel' =>
      if decide (first ≠ last) then
        let* x := gen in
        generate_random fuel' (S first) last (<[first := x]> mem) gen
      else rand_ret mem
  end.

(** Modelled from the spec: [o_begin(range)] and [o_end(range)] of
    origin/iterator.hpp (not among the sources), the first position of
    "the destination range" and the position past its last. *)
Definition o_begin (range : list A) : nat := 0.
Definition o_end (range : list A) : nat := length range.

(** [generate_random(range, eng, gen)] *)
Definition generate_random_range (fuel : nat) (range : list A)
    (gen : rand E A) : rand E (list A) :=
  generate_random fuel (o_begin range) (o_end range) range gen.

(** [n] successive draws, in order. *)
Fixpoint draws (n : nat) (gen : rand E A) : rand E (list A) :=
  match n with
  | O => rand_ret []
  | S n' => let* x := gen in let* xs := draws n' gen in rand_ret (x :: xs)
  end.

(** A stub that counts the calls made to [gen]. *)
Definition counting (gen : rand E A) : rand (E * nat) A :=
  λ '(eng, count),
    match gen eng with
    | Some (x, eng') => Some (x, (eng', S count))
    | None => None
    end.
End algorithms.

Section generate.
Context {E A : Type}.

(** Modelled from the spec: the range algorithm [generate(range, gen)] of
    origin/algorithm.hpp, which is not among the sources. It "fills each
    position independently from ElementDist, preserving generation order
    (position 0 first)": one call of the nullary [gen] per position, the
    results stored from the first position to the last. *)
Fixpoint generate (range : list A) (gen : rand E A) : rand E (list A) :=
  match range with
  | [] => rand_ret []
  | _ :: range' =>
      let* x := gen in
      let* xs := generate range' gen in
      rand_ret (x :: xs)
  end.

(** [make_random(eng, dist)] called with lvalues: a
    [random_variable<Eng&, Dist&>], the nullary function whose call is
    [dist(eng)] on the caller's engine. *)
Definition make_random (dist : rand E A) : rand E A := dist.

(** The arguments of a call [f(a0, a1, ...)] evaluated in the order
    [order], each result kept for its own parameter. *)
Fixpoint eval_arguments (order : list nat) (args : list (rand E A))
    (slots : list (option A)) : rand E (list (option A)) :=
  match order with
  | [] => rand_ret slots
  | i :: order' =>
      match args !! i with
      | Some arg =>
          let* x := arg in
          eval_arguments order' args (<[i := Some x]> slots)
      | None => rand_fail
      end
  end.
End generate.

(** The order in which the compiler evaluates the three arguments of a
    parenthesised call; the language leaves it unspecified. *)
Class Evaluation_order : Type := {
  argument_order : list nat;
  argument_order_perm : argument_order ≡ₚ [0; 1; 2]%nat;
}.

(** ** Constructors and their default arguments *)

(** [std::uniform_int_distribution<T>{}] is over [0, max]. *)
Definition std_uniform_int_distribution (T : type) : dist :=
  uniform_int_distribution T 0 (numeric_limits_max T).

(** [std::uniform_real_distribution<T>{}] is over [0, 1). *)
Definition std_uniform_real_distribution (T : type) : dist :=
  uniform_real_distribution T 0 1.

(** [std::bernoulli_distribution{}] has [p = 0.5]. *)
Definition std_bernoulli_distribution : dist :=
  bernoulli_distribution (Q2Qc (1 # 2)).

(** [random_sequence_distribution(const Size& s = Size{0, 32},
    const Gen& d = Gen{})] with both arguments defaulted, where [Size] is
    [std::uniform_int_distribution<Size_type<Seq>>] and [d] is the
    value-initialised [Default_distribution_type<Value_type<Seq>>]. *)
Definition random_sequence_distribution_default (Seq : type) (d : dist)
    : dist :=
  random_sequence_distribution Seq
    (uniform_int_distribution (Size_type Seq) 0 32) d.

(** [random_string_distribution(const Len& l = Len{0, 32},
    const Alpha& a = Alpha{33, 126})] for [Str = basic_string<C, T, A>]:
    the base class built from [l] and [a]. *)
Definition random_string_distribution_default (C : type) : dist :=
  random_string_distribution (basic_string C)
    (uniform_int_distribution (Size_type (basic_string C)) 0 32)
    (uniform_int_distribution C 33 126).

(** [random_iterator_distribution(Cont& c) : cont(c), dist(0, c.size() - 1)];
    [c.size()] is unsigned. *)
Definition random_iterator_distribution_ctor (c : container) : dist :=
  random_iterator_distribution (address c)
    0 (size_wrap (Z.of_nat (length (elements c)) - 1)).

(** [random_tuple_generator() : dists{}], every component
    value-initialised. With an empty pack [random_tuple_generator(Dists&&...)]
    declares the default constructor a second time and the class cannot be
    instantiated. *)
Definition random_tuple_generator_default (dists : list dist) : option dist :=
  match dists with
  | [] => None
  | _ => Some (random_tuple_generator dists)
  end.

(** ** The call operators *)

Section call.
Context {std : Std_random} {order : Evaluation_order}.

(** The conversion of a drawn size to the container's [size_type] in
    [Seq s(size(eng), Value_type<Seq>{})]. A negative size wraps around to
    a length beyond any [max_size()], and the constructor throws. *)
Definition to_size (v : value) : option nat :=
  match v with
  | V_int n => if decide (0 ≤ n)%Z then Some (Z.to_nat n) else None
  | _ => None
  end.

(** [random_sequence_distribution::operator()], given the call operators
    of [size] and [gen]. *)
Definition random_sequence_call (Seq : type)
    (size gen : rand Engine value) : rand Engine value :=
  match Value_type Seq with
  | Some V =>
      let* n := size in
      match to_size n with
      | Some n =>
          let s := replicate n (value_init V) in
          let* s := generate s (make_random gen) in
          rand_ret (V_seq s)
      | None => rand_fail
      end
  | None => rand_fail
  end.

(** [generate<D1>(eng)]: [get<0>(dists(eng))] calls the tuple of
    distributions itself, which is not callable; the instantiation is
    ill-formed. *)
Definition generate_D1 (d1 : rand Engine value) : rand Engine value :=
  rand_fail.

(** [generate<D1, D2>(eng)]: a braced initialiser list, whose elements are
    evaluated in the order written. *)
Definition generate_D1_D2 (d1 d2 : rand Engine value) : rand Engine value :=
  let* x0 := d1 in
  let* x1 := d2 in
  rand_ret (V_tuple [x0; x1]).

(** [generate<D1, D2, D3>(eng)]: a parenthesised constructor call. *)
Definition generate_D1_D2_D3 (d1 d2 d3 : rand Engine value)
    : rand Engine value :=
  let* slots := eval_arguments argument_order [d1; d2; d3]
                  [None; None; None] in
  match mapM id slots with
  | Some xs => rand_ret (V_tuple xs)
  | None => rand_fail
  end.

(** [random_tuple_generator::operator()]: [generate<Dists...>(eng)]
    selects the overload with as many distribution parameters as
    [Dists]; there are three. *)
Definition random_tuple_call (dists : list (rand Engine value))
    : rand Engine value :=
  match dists with
  | [d1] => generate_D1 d1
  | [d1; d2] => generate_D1_D2 d1 d2
  | [d1; d2; d3] => generate_D1_D2_D3 d1 d2 d3
  | _ => rand_fail
  end.

(** [d(eng)] *)
Fixpoint call (d : dist) : rand Engine value :=
  match d with
  | uniform_int_distribution _ a b =>
      λ eng, let '(z, eng') := uniform_int a b eng in Some (V_int z, eng')
  | uniform_real_distribution _ a b =>
      λ eng, let '(q, eng') := uniform_real a b eng in Some (V_real q, eng')
  | bernoulli_distribution p =>
      λ eng, let '(b, eng') := bernoulli p eng in Some (V_bool b, eng')
  | single_value_distribution value => rand_ret value
  | adapted_distribution Result dist =>
      let* x := call dist in rand_ret (V_object Result [x])
  | random_sequence_distribution Seq size gen =>
      random_sequence_call Seq (call size) (call gen)
  | random_string_distribution Str size gen =>
      random_sequence_call Str (call size) (call gen)
  | random_iterator_distribution cont a b =>
      (* o_next(cont.begin(), dist(eng)) *)
      λ eng, let '(k, eng') := uniform_int a b eng in
             Some (V_iterator cont k, eng')
  | random_tuple_generator dists => random_tuple_call (map call dists)
  end.
End call.

(** ** Equality *)

Definition list_eqb {A} (eqb : A → A → bool) : list A → list A → bool :=
  fix go l k :=
    match l, k with
    | [], [] => true
    | x :: l', y :: k' => eqb x y && go l' k'
    | _, _ => false
    end.

Definition integer_type_eqb (i j : integer_type) : bool :=
  match i, j with
  | char, char | signed_char, signed_char | unsigned_char, unsigned_char
  | short, short | unsigned_short, unsigned_short
  | int, int | unsigned_int, unsigned_int
  | long, long | unsigned_long, unsigned_long
  | long_long, long_long | unsigned_long_long, unsigned_long_long => true
  | _, _ => false
  end.

Definition floating_type_eqb (f g : floating_type) : bool :=
  match f, g with
  | float, float | double, double | long_double, long_double => true
  | _, _ => false
  end.

Fixpoint type_eqb (T U : type) : bool :=
  match T, U with
  | T_bool, T_bool => true
  | T_integer i, T_integer j => integer_type_eqb i j
  | T_floating f, T_floating g => floating_type_eqb f g
  | basic_string C, basic_string D => type_eqb C D
  | tuple Args, tuple Args' => list_eqb type_eqb Args Args'
  | T_class s a V, T_class s' a' V' =>
      Bool.eqb s s' && Bool.eqb a a' && type_eqb V V'
  | T_other n, T_other m => Nat.eqb n m
  | _, _ => false
  end.

(** [==] on generated values. A NaN compares unequal to every value,
    itself included. *)
Fixpoint value_eqb (x y : value) : bool :=
  match x, y with
  | V_bool b, V_bool b' => Bool.eqb b b'
  | V_int z, V_int z' => Z.eqb z z'
  | V_real q, V_real q' => bool_decide (q = q')
  | V_nan, V_nan => false
  | V_seq xs, V_seq ys => list_eqb value_eqb xs ys
  | V_tuple xs, V_tuple ys => list_eqb value_eqb xs ys
  | V_object T xs, V_object U ys => type_eqb T U && list_eqb value_eqb xs ys
  | V_iterator c k, V_iterator c' k' => N.eqb c c' && Z.eqb k k'
  | _, _ => false
  end.

(** [operator==] of each distribution class. The standard distributions
    compare their parameters; [random_string_distribution] inherits the
    operator of its base; a [std::tuple] of distributions compares
    component by component. *)
Fixpoint dist_eqb (x y : dist) : bool :=
  match x, y with
  | uniform_int_distribution _ a b, uniform_int_distribution _ a' b' =>
      Z.eqb a a' && Z.eqb b b'
  | uniform_real_distribution _ a b, uniform_real_distribution _ a' b' =>
      bool_decide (a = a') && bool_decide (b = b')
  | bernoulli_distribution p, bernoulli_distribution p' =>
      bool_decide (p = p')
  | single_value_distribution value, single_value_distribution value' =>
      value_eqb value value'
  | adapted_distribution _ dist, adapted_distribution _ dist' =>
      dist_eqb dist dist'
  | random_sequence_distribution _ size gen,
    random_sequence_distribution _ size' gen' =>
      dist_eqb size size' && dist_eqb gen gen'
  | random_string_distribution _ size gen,
    random_string_distribution _ size' gen' =>
      dist_eqb size size' && dist_eqb gen gen'
  | random_iterator_distribution cont _ _,
    random_iterator_distribution cont' _ _ =>
      N.eqb cont cont'
  | random_tuple_generator dists, random_tuple_generator dists' =>
      list_eqb dist_eqb dists dists'
  | _, _ => false
  end.

(** The class-template specialisation a distribution object is an instance
    of: the template arguments without the data members. *)
Inductive distribution_type : Set :=
  | D_uniform_int (T : type)
  | D_uniform_real (T : type)
  | D_bernoulli
  | D_single_value
  | D_adapted (Dist : distribution_type) (Result : type)
  | D_random_sequence (Seq : type) (Size Gen : distribution_type)
  | D_random_string (Str : type) (Len Alpha : distribution_type)
  | D_random_iterator
  | D_random_tuple (Dists : list distribution_type).

Fixpoint type_of (d : dist) : distribution_type :=
  match d with
  | uniform_int_distribution T _ _ => D_uniform_int T
  | uniform_real_distribution T _ _ => D_uniform_real T
  | bernoulli_distribution _ => D_bernoulli
  | single_value_distribution _ => D_single_value
  | adapted_distribution Result dist => D_adapted (type_of dist) Result
  | random_sequence_distribution Seq size gen =>
      D_random_sequence Seq (type_of size) (type_of gen)
  | random_string_distribution Str size gen =>
      D_random_string Str (type_of size) (type_of gen)
  | random_iterator_distribution _ _ _ => D_random_iterator
  | random_tuple_generator dists => D_random_tuple (map type_of dists)
  end.

(** No iterator-position distribution occurs in [d]. *)
Fixpoint position_free (d : dist) : bool :=
  match d with
  | random_iterator_distribution _ _ _ => false
  | adapted_distribution _ dist => position_free dist
  | random_sequence_distribution _ size gen
  | random_string_distribution _ size gen =>
      position_free size && position_free gen
  | random_tuple_generator dists => forallb position_free dists
  | _ => true
  end.

(** No NaN occurs in the value [v]. *)
Fixpoint value_nan_free (v : value) : bool :=
  match v with
  | V_nan => false
  | V_seq xs | V_tuple xs | V_object _ xs => forallb value_nan_free xs
  | _ => true
  end.

(** No single-value distribution in [d] holds a NaN. The parameters of the
    standard distributions are finite by their preconditions. *)
Fixpoint nan_free (d : dist) : bool :=
  match d with
  | single_value_distribution value => value_nan_free value
  | adapted_distribution _ dist => nan_free dist
  | random_sequence_distribution _ size gen
  | random_string_distribution _ size gen => nan_free size && nan_free gen
  | random_tuple_generator dists => forallb nan_free dists
  | _ => true
  end.

(** The distributions a composite distribution is built from, in the order
    of its data members: the inner distribution of an adapted one, the size
    and element distributions of a sequence or string one, the components
    of a tuple generator. *)
Definition components (d : dist) : list dist :=
  match d with
  | adapted_distribution _ dist => [dist]
  | random_sequence_distribution _ size gen
  | random_string_distribution _ size gen => [size; gen]
  | random_tuple_generator dists => dists
  | _ => []
  end.

Definition composite (d : dist) : bool :=
  match d with
  | adapted_distribution _ _
  | random_sequence_distribution _ _ _
  | random_string_distribution _ _ _
  | random_tuple_generator _ => true
  | _ => false
  end.

(** A tuple generator over a sequence distribution of adapted integers in
    [0, b] and a fair coin. *)
Definition example_tuple_generator (b : Z) : dist :=
  random_tuple_generator
    [random_sequence_distribution (T_class true false (T_integer int))
       (uniform_int_distribution size_t 0 32)
       (adapted_distribution (T_other 0)
          (uniform_int_distribution (T_integer int) 0 b));
     std_bernoulli_distribution].

(** The iterator [v] can be dereferenced in the container [c]. *)
Definition dereferenceable (c : container) (v : value) : Prop :=
  ∃ k, v = V_iterator (address c) k
       ∧ (0 ≤ k < Z.of_nat (length (elements c)))%Z.

Definition empty_container : container := {| address := 0; elements := [] |}.

(** ** The default distribution facility *)

(** [default_integral_distribution<T>::get()] *)
Definition default_integral_distribution (T : type) : option dist :=
  if Integral T (* static_assert *)
  then Some (std_uniform_int_distribution T)
  else None.

(** [default_floating_point_distribution<T>::get()] *)
Definition default_floating_point_distribution (T : type) : option dist :=
  if Floating_point T (* static_assert *)
  then Some (std_uniform_real_distribution T)
  else None.

(** [default_sequence_distribution<Seq>::get()]: a value-initialised
    [random_sequence_distribution<Seq>]. [Gen] is the value-initialised
    default distribution of [Value_type<Seq>], if that type has one. *)
Definition default_sequence_distribution (Seq : type) (Gen : option dist)
    : option dist :=
  match Gen with
  | Some d => Some (random_sequence_distribution_default Seq d)
  | None => None
  end.

Module traits.
Definition arithmetic_distribution (T : type) : option dist :=
  if Integral T
  then default_integral_distribution T
  else default_floating_point_distribution T.

(** Defined for [<T, true, false>] only. *)
Definition udt_distribution (T : type) (Gen : option dist) : option dist :=
  match Sequence T, Associative_container T with
  | true, false => default_sequence_distribution T Gen
  | _, _ => None
  end.

Definition deduce_distribution (T : type) (Gen : option dist)
    : option dist :=
  if Arithmetic T
  then arithmetic_distribution T
  else udt_distribution T Gen.
End traits.

(** [default_distribution_traits<T>::get()]: the specialisations for
    [bool], [std::basic_string<C, T, A>] and [std::tuple<Args...>], and the
    primary template, which derives from [traits::deduce_distribution<T>].
    Every [get] returns a value-initialised object of its result type, so
    the value-initialised [Default_distribution_type<U>] is what [get]
    returns for [U]. [None]: the type has no default distribution and the
    program does not build. *)
Fixpoint default_distribution_traits (T : type) : option dist :=
  match T with
  | T_bool => Some std_bernoulli_distribution
  | basic_string C => Some (random_string_distribution_default C)
  | tuple Args =>
      match mapM default_distribution_traits Args with
      | Some dists => random_tuple_generator_default dists
      | None => None
      end
  | T_class _ _ V =>
      traits.deduce_distribution T (default_distribution_traits V)
  | T_integer _ | T_floating _ | T_other _ =>
      traits.deduce_distribution T None
  end.

(** [default_distribution<T>()] *)
Definition default_distribution (T : type) : option dist :=
  default_distribution_traits T.

(** What the category rules alone give for [T]: the primary template of
    [default_distribution_traits]. *)
Definition deduced_distribution (T : type) : option dist :=
  traits.deduce_distribution T
    (match Value_type T with
     | Some V => default_distribution V
     | None => None
     end).

(** The exact-type rules: [T] has a specialisation of its own. *)
Definition specialized (T : type) : bool :=
  match T with
  | T_bool | basic_string _ | tuple _ => true
  | _ => false
  end.

(** ** A model of the interfaces *)

Lemma minstd_uniform_int_range (a b x : Z) :
  (a ≤ b)%Z → (a ≤ (minstd_uniform_int a b x).1 ≤ b)%Z.
Proof.
  intros Hab. unfold minstd_uniform_int. cbn [fst].
  pose proof (Z.mod_pos_bound (minstd_step x) (b - a + 1)). lia.
Qed.

#[local] Instance minstd_rand : Std_random := {|
  Engine := Z;
  uniform_int := minstd_uniform_int;
  uniform_int_range := minstd_uniform_int_range;
  uniform_real := minstd_uniform_real;
  bernoulli := minstd_bernoulli;
|}.

Definition left_to_right : Evaluation_order :=
  {| argument_order := [0; 1; 2]%nat; argument_order_perm := reflexivity _ |}.

Lemma right_to_left_perm : [2; 1; 0]%nat ≡ₚ [0; 1; 2]%nat.
Proof. by rewrite (Permutation_rev [0; 1; 2]%nat). Qed.

Definition right_to_left : Evaluation_order :=
  {| argument_order := [2; 1; 0]%nat;
     argument_order_perm := right_to_left_perm |}.

(** Some runs of the model. *)

Example default_distribution_vector_of_strings :
  default_distribution (T_class true false (basic_string (T_integer char)))
  = Some (random_sequence_distribution
            (T_class true false (basic_string (T_integer char)))
            (uniform_int_distribution size_t 0 32)
            (random_string_distribution (basic_string (T_integer char))
               (uniform_int_distribution size_t 0 32)
               (uniform_int_distribution (T_integer char) 33 126))).
Proof. reflexivity. Qed.

Example default_distribution_set :
  default_distribution (T_class false true (T_integer int)) = None.
Proof. reflexivity. Qed.

Example random_string_distribution_run :
  call (std := minstd_rand) (order := left_to_right)
    (random_string_distribution_default (T_integer char)) 12345%Z
  = Some (V_seq [V_int 36; V_int 94; V_int 46; V_int 97; V_int 69;
                 V_int 103; V_int 57; V_int 59; V_int 46],
          1419946529%Z).
Proof. reflexivity. Qed.

Example generate_random_run :
  generate_random 10 1 3 [1; 2; 3; 4]
    (counting (λ eng : nat, Some (eng * 10, S eng))) (5, 0)
  = Some ([1; 50; 60; 4], (7, 2)).
Proof. reflexivity. Qed.

(** * Properties *)

(** ** Induction through the lists of components *)

Lemma type_ind_nested (P : type → Prop) :
  P T_bool →
  (∀ i, P (T_integer i)) →
  (∀ f, P (T_floating f)) →
  (∀ C, P C → P (basic_string C)) →
  (∀ Args, Forall P Args → P (tuple Args)) →
  (∀ s a V, P V → P (T_class s a V)) →
  (∀ n, P (T_other n)) →
  ∀ T, P T.
Proof.
  intros Hbool Hint Hfloat Hstr Htuple Hclass Hother.
  fix IH 1. intros [ | i | f | C | Args | s a V | n].
  - exact Hbool.
  - apply Hint.
  - apply Hfloat.
  - apply Hstr, IH.
  - apply Htuple. induction Args as [|T Args IHArgs]; constructor.
    + apply IH.
    + exact IHArgs.
  - apply Hclass, IH.
  - apply Hother.
Qed.

Lemma value_ind_nested (P : value → Prop) :
  (∀ b, P (V_bool b)) →
  (∀ z, P (V_int z)) →
  (∀ q, P (V_real q)) →
  P V_nan →
  (∀ xs, Forall P xs → P (V_seq xs)) →
  (∀ xs, Forall P xs → P (V_tuple xs)) →
  (∀ T xs, Forall P xs → P (V_object T xs)) →
  (∀ c k, P (V_iterator c k)) →
  ∀ x, P x.
Proof.
  intros Hbool Hint Hreal Hnan Hseq Htuple Hobj Hiter.
  fix IH 1.
  assert (∀ xs, Forall P xs) as IHs.
  { induction xs as [|x xs IHxs]; constructor; [apply IH | exact IHxs]. }
  intros [b | z | q | | xs | xs | T xs | c k].
  - apply Hbool.
  - apply Hint.
  - apply Hreal.
  - apply Hnan.
  - apply Hseq, IHs.
  - apply Htuple, IHs.
  - apply Hobj, IHs.
  - apply Hiter.
Qed.

Lemma dist_ind_nested (P : dist → Prop) :
  (∀ T a b, P (uniform_int_distribution T a b)) →
  (∀ T a b, P (uniform_real_distribution T a b)) →
  (∀ p, P (bernoulli_distribution p)) →
  (∀ x, P (single_value_distribution x)) →
  (∀ R d, P d → P (adapted_distribution R d)) →
  (∀ S size gen, P size → P gen → P (random_sequence_distribution S size gen)) →
  (∀ S size gen, P size → P gen → P (random_string_distribution S size gen)) →
  (∀ c a b, P (random_iterator_distribution c a b)) →
  (∀ ds, Forall P ds → P (random_tuple_generator ds)) →
  ∀ d, P d.
Proof.
  intros Hint Hreal Hbern Hsingle Hadapt Hseq Hstr Hiter Htuple.
  fix IH 1.
  intros [T a b | T a b | p | x | R d | S sz g | S sz g | c a b | ds].
  - apply Hint.
  - apply Hreal.
  - apply Hbern.
  - apply Hsingle.
  - apply Hadapt, IH.
  - apply Hseq; apply IH.
  - apply Hstr; apply IH.
  - apply Hiter.
  - apply Htuple. induction ds as [|d ds IHds]; constructor.
    + apply IH.
    + exact IHds.
Qed.

(** ** Equality decides equality of the parameters *)

Lemma list_eqb_refl {A} (eqb : A → A → bool) (l : list A) :
  Forall (λ x, eqb x x = true) l → list_eqb eqb l l = true.
Proof. induction 1 as [|x l Hx _ IH]; cbn; [done | by rewrite Hx, IH]. Qed.

Lemma list_eqb_eq {A} (eqb : A → A → bool) (l : list A) :
  Forall (λ x, ∀ y, eqb x y = true ↔ x = y) l →
  ∀ k, list_eqb eqb l k = true ↔ l = k.
Proof.
  induction 1 as [|x l Hx _ IH]; intros [|y k]; cbn; try done.
  rewrite andb_true_iff, Hx, IH. split; [intros [-> ->]; done | by inversion 1].
Qed.

Lemma list_eqb_eq_guarded {A} (eqb : A → A → bool) (ok : A → bool)
    (l : list A) :
  Forall (λ x, ∀ y, eqb x y = true ↔ x = y ∧ ok x = true) l →
  ∀ k, list_eqb eqb l k = true ↔ l = k ∧ forallb ok l = true.
Proof.
  induction 1 as [|x l Hx _ IH]; intros [|y k]; cbn.
  - done.
  - split; [done | by intros []].
  - split; [done | by intros []].
  - rewrite !andb_true_iff, Hx, IH. split.
    + by intros [[-> ?] [-> ?]].
    + intros [[= -> ->] [? ?]]. done.
Qed.

Lemma list_eqb_refl_iff {A} (eqb : A → A → bool) (ok : A → bool)
    (l : list A) :
  Forall (λ x, eqb x x = true ↔ ok x = true) l →
  list_eqb eqb l l = true ↔ forallb ok l = true.
Proof.
  induction 1 as [|x l Hx _ IH]; cbn; [done|].
  by rewrite !andb_true_iff, Hx, IH.
Qed.

Lemma list_eqb_Forall2 {A} (eqb : A → A → bool) (l k : list A) :
  list_eqb eqb l k = true ↔ Forall2 (λ x y, eqb x y = true) l k.
Proof.
  revert k. induction l as [|x l IH]; intros [|y k]; cbn.
  - split; [constructor | done].
  - split; [done | inversion 1].
  - split; [done | inversion 1].
  - rewrite andb_true_iff, IH. split; [intros []; by constructor | by inversion 1].
Qed.

Lemma integer_type_eqb_eq (i j : integer_type) :
  integer_type_eqb i j = true ↔ i = j.
Proof. destruct i, j; cbn; split; congruence. Qed.

Lemma floating_type_eqb_eq (f g : floating_type) :
  floating_type_eqb f g = true ↔ f = g.
Proof. destruct f, g; cbn; split; congruence. Qed.

Lemma type_eqb_eq (T U : type) : type_eqb T U = true ↔ T = U.
Proof.
  revert U. induction T as [| i | f | C IH | Args IH | s a V IH | n]
    using type_ind_nested; intros [| j | g | D | Args' | s' a' V' | m];
    cbn; try (split; congruence).
  - rewrite integer_type_eqb_eq. split; congruence.
  - rewrite floating_type_eqb_eq. split; congruence.
  - rewrite IH. split; congruence.
  - rewrite (list_eqb_eq _ _ IH). split; congruence.
  - rewrite !andb_true_iff, !Bool.eqb_true_iff, IH.
    split; [intros [[-> ->] ->]; done | by inversion 1].
  - rewrite Nat.eqb_eq. split; congruence.
Qed.

(** Two values compare equal exactly when they are the same value and no
    NaN occurs in it. *)
Lemma value_eqb_eq (x y : value) :
  value_eqb x y = true ↔ x = y ∧ value_nan_free x = true.
Proof.
  revert y. induction x as [b | z | q | | xs IH | xs IH | T xs IH | c k]
    using value_ind_nested;
    intros [b' | z' | q' | | ys | ys | U ys | c' k'];
    cbn; try (split; [done | by intros []]).
  - rewrite Bool.eqb_true_iff. split; [by intros -> | by intros [[= ->] _]].
  - rewrite Z.eqb_eq. split; [by intros -> | by intros [[= ->] _]].
  - rewrite bool_decide_eq_true.
    split; [by intros -> | by intros [[= ->] _]].
  - rewrite (list_eqb_eq_guarded _ _ _ IH).
    split; [by intros [-> ?] | by intros [[= ->] ?]].
  - rewrite (list_eqb_eq_guarded _ _ _ IH).
    split; [by intros [-> ?] | by intros [[= ->] ?]].
  - rewrite andb_true_iff, type_eqb_eq, (list_eqb_eq_guarded _ _ _ IH).
    split; [by intros [-> [-> ?]] | by intros [[= -> ->] ?]].
  - rewrite andb_true_iff, N.eqb_eq, Z.eqb_eq.
    split; [by intros [-> ->] | by intros [[= -> ->] _]].
Qed.

(** A distribution compares equal to itself exactly when no single-value
    distribution in it holds a NaN. *)
Lemma dist_eqb_refl_iff (d : dist) :
  dist_eqb d d = true ↔ nan_free d = true.
Proof.
  induction d as [T a b | T a b | p | x | R d IH | S sz g IHs IHg
    | S sz g IHs IHg | c a b | ds IH] using dist_ind_nested; cbn.
  - by rewrite !Z.eqb_refl.
  - by rewrite !bool_decide_eq_true_2.
  - by rewrite bool_decide_eq_true_2.
  - rewrite value_eqb_eq. split; [by intros [] | done].
  - done.
  - by rewrite !andb_true_iff, IHs, IHg.
  - by rewrite !andb_true_iff, IHs, IHg.
  - by rewrite N.eqb_refl.
  - by apply list_eqb_refl_iff.
Qed.

Lemma dist_eqb_refl (d : dist) : nan_free d = true → dist_eqb d d = true.
Proof. apply dist_eqb_refl_iff. Qed.

(** The components of a tuple of distributions, given the property for each
    of them. *)
Lemma dists_eqb_eq (ds : list dist) :
  Forall (λ x, ∀ y, type_of x = type_of y → position_free x = true →
               nan_free x = true → (dist_eqb x y = true ↔ x = y)) ds →
  ∀ ds', map type_of ds = map type_of ds' →
         forallb position_free ds = true → forallb nan_free ds = true →
         (list_eqb dist_eqb ds ds' = true ↔ ds = ds').
Proof.
  induction 1 as [|x ds Hx _ IH]; intros [|y ds'] Hty Hfree Hnan; cbn in *;
    try done.
  apply andb_true_iff in Hfree as [Hfx Hfree].
  apply andb_true_iff in Hnan as [Hnx Hnan]. injection Hty as Hx' Hty.
  rewrite andb_true_iff, (Hx _ Hx' Hfx Hnx), (IH _ Hty Hfree Hnan).
  split; [intros [-> ->]; done | by inversion 1].
Qed.

Lemma dist_eqb_eq (x y : dist) :
  type_of x = type_of y → position_free x = true → nan_free x = true →
  (dist_eqb x y = true ↔ x = y).
Proof.
  revert y. induction x as [T a b | T a b | p | v | R d IH | S sz g IHs IHg
    | S sz g IHs IHg | c a b | ds IH] using dist_ind_nested;
    intros [T' a' b' | T' a' b' | p' | v' | R' d' | S' sz' g' | S' sz' g'
           | c' a' b' | ds'] Hty Hfree Hnan; cbn in *; try done.
  - injection Hty as ->. rewrite andb_true_iff, !Z.eqb_eq.
    split; [intros [-> ->]; done | by inversion 1].
  - injection Hty as ->. rewrite andb_true_iff, !bool_decide_eq_true.
    split; [intros [-> ->]; done | by inversion 1].
  - rewrite bool_decide_eq_true. split; congruence.
  - rewrite value_eqb_eq. split; [by intros [-> _] | by intros [= ->]].
  - injection Hty as Hd ->. rewrite (IH _ Hd Hfree Hnan). split; congruence.
  - injection Hty as -> Hsz Hg. apply andb_true_iff in Hfree as [Hfs Hfg].
    apply andb_true_iff in Hnan as [Hns Hng].
    rewrite andb_true_iff, (IHs _ Hsz Hfs Hns), (IHg _ Hg Hfg Hng).
    split; [intros [-> ->]; done | by inversion 1].
  - injection Hty as -> Hsz Hg. apply andb_true_iff in Hfree as [Hfs Hfg].
    apply andb_true_iff in Hnan as [Hns Hng].
    rewrite andb_true_iff, (IHs _ Hsz Hfs Hns), (IHg _ Hg Hfg Hng).
    split; [intros [-> ->]; done | by inversion 1].
  - injection Hty as Hds. rewrite (dists_eqb_eq _ IH _ Hds Hfree Hnan).
    split; congruence.
Qed.

(** ** Successive draws *)

Section draws.
Context {E A : Type}.
Implicit Types (gen : rand E A) (eng : E).

Lemma draws_length gen n eng xs eng' :
  draws n gen eng = Some (xs, eng') → length xs = n.
Proof.
  revert eng xs. induction n as [|n IH]; intros eng xs; cbn.
  - unfold rand_ret. by intros [= <- _].
  - unfold rand_bind, rand_ret. destruct (gen eng) as [[x eng1]|]; [|done].
    destruct (draws n gen eng1) as [[ys eng2]|] eqn:Hys; [|done].
    intros [= <- <-]. cbn. f_equal. by eapply IH.
Qed.

(** The element at position [i] is the value of the draw made after
    exactly [i] earlier draws. *)
Lemma draws_lookup gen n eng xs eng' i x :
  draws n gen eng = Some (xs, eng') → xs !! i = Some x →
  ∃ eng_i eng_i',
    draws i gen eng = Some (take i xs, eng_i) ∧ gen eng_i = Some (x, eng_i').
Proof.
  revert eng xs i. induction n as [|n IH]; intros eng xs i; cbn.
  - unfold rand_ret. by intros [= <- _].
  - unfold rand_bind, rand_ret.
    destruct (gen eng) as [[y eng1]|] eqn:Hy; [|done].
    destruct (draws n gen eng1) as [[ys eng2]|] eqn:Hys; [|done].
    intros [= <- <-]. destruct i as [|i]; cbn.
    + intros [= ->]. by exists eng, eng1.
    + intros Hx. destruct (IH _ _ _ Hys Hx) as (e & e' & Hd & Hg).
      exists e, e'. unfold rand_bind, rand_ret. by rewrite Hy, Hd.
Qed.

Lemma draws_counting gen n eng count :
  draws n (counting gen) (eng, count) =
  match draws n gen eng with
  | Some (xs, eng') => Some (xs, (eng', count + n))
  | None => None
  end.
Proof.
  revert eng count. induction n as [|n IH]; intros eng count; cbn.
  - unfold rand_ret. by rewrite Nat.add_0_r.
  - unfold rand_bind, rand_ret. cbn.
    destruct (gen eng) as [[x eng1]|]; [|done]. rewrite IH.
    destruct (draws n gen eng1) as [[xs eng2]|]; [|done].
    do 3 f_equal. lia.
Qed.

Lemma generate_draws (range : list A) gen eng :
  generate range gen eng = draws (length range) gen eng.
Proof.
  revert eng. induction range as [|y range IH]; intros eng; cbn; [done|].
  unfold rand_bind. destruct (gen eng) as [[x eng1]|]; [|done].
  by rewrite IH.
Qed.

Lemma generate_random_draws gen fuel first last (mem : list A) eng :
  first ≤ last ≤ length mem → last - first < fuel →
  generate_random fuel first last mem gen eng =
  (let* xs := draws (last - first) gen in
   rand_ret (take first mem ++ xs ++ drop last mem)) eng.
Proof.
  revert first mem eng.
  induction fuel as [|fuel IH]; intros first mem eng Hrange Hfuel; [lia|].
  cbn [generate_random]. destruct (decide (first ≠ last)) as [Hne|Heq].
  - replace (last - first) with (S (last - S first)) by lia. cbn [draws].
    unfold rand_bind, rand_ret. destruct (gen eng) as [[x eng1]|]; [|done].
    rewrite IH by (rewrite ?length_insert; lia).
    unfold rand_bind, rand_ret.
    destruct (draws _ gen eng1) as [[xs eng2]|]; [|done].
    do 2 f_equal.
    rewrite (take_S_r _ _ x) by (apply list_lookup_insert_eq; lia).
    rewrite take_insert_ge, drop_insert_lt by lia.
    by rewrite <- app_assoc.
  - assert (first = last) as -> by lia.
    rewrite Nat.sub_diag. cbn. unfold rand_bind, rand_ret.
    by rewrite take_drop.
Qed.

(** Position by position: outside the range the storage is as it was, and
    the position [first + i] holds the value of the draw that [i] earlier
    draws precede. *)
Lemma generate_random_lookup gen fuel first last (mem mem' : list A)
    eng eng' :
  first ≤ last ≤ length mem → last - first < fuel →
  generate_random fuel first last mem gen eng = Some (mem', eng') →
  length mem' = length mem
  ∧ (∀ i, i < first ∨ last ≤ i → mem' !! i = mem !! i)
  ∧ (∀ i, i < last - first →
       ∃ x xs_i eng_i eng_i',
         mem' !! (first + i) = Some x
         ∧ draws i gen eng = Some (xs_i, eng_i)
         ∧ gen eng_i = Some (x, eng_i')).
Proof.
  intros Hrange Hfuel. rewrite generate_random_draws by done.
  unfold rand_bind, rand_ret.
  destruct (draws _ gen eng) as [[xs e]|] eqn:Hxs; [|done].
  intros [= <- <-]. pose proof (draws_length _ _ _ _ _ Hxs) as Hlen.
  assert (length (take first mem) = first) as Htake
    by (rewrite length_take; lia).
  split; [|split].
  - rewrite !length_app, Htake, length_drop. lia.
  - intros i [Hi|Hi].
    + rewrite lookup_app_l by lia. by apply lookup_take_lt.
    + rewrite lookup_app_r by lia. rewrite lookup_app_r by lia.
      rewrite lookup_drop. f_equal. lia.
  - intros i Hi.
    destruct (lookup_lt_is_Some_2 xs i ltac:(lia)) as [x Hx].
    destruct (draws_lookup _ _ _ _ _ _ _ Hxs Hx) as (e_i & e_i' & Hd & Hg).
    exists x, (take i xs), e_i, e_i'. split; [|done].
    rewrite lookup_app_r by lia. rewrite lookup_app_l by lia.
    rewrite <- Hx. f_equal. lia.
Qed.
End draws.

(** ** Bulk fill *)

(** C8: over a destination range [first, last) of length [n] of the storage
    [mem], [generate_random] makes [n] successive draws and stores them at
    the positions of the range in range order, leaving the rest of [mem]
    as it was: the position [first + i] holds the value of the draw that
    [i] earlier draws precede; a stub counting the calls of the
    distribution counts exactly [n] of them; over an empty range nothing is
    stored and nothing drawn.
    The range overload is the iterator overload at [o_begin] and [o_end]. *)
Theorem generate_random_fills_range {E A} (gen : rand E A) (mem : list A)
    (first last fuel : nat) (eng : E) :
  first ≤ last ≤ length mem → last - first < fuel →
  generate_random fuel first last mem gen eng =
    (let* xs := draws (last - first) gen in
     rand_ret (take first mem ++ xs ++ drop last mem)) eng
  ∧ (∀ count,
       generate_random fuel first last mem (counting gen) (eng, count) =
       match generate_random fuel first last mem gen eng with
       | Some (mem', eng') => Some (mem', (eng', count + (last - first)))
       | None => None
       end)
  ∧ (first = last →
       generate_random fuel first last mem gen eng = Some (mem, eng)
       ∧ ∀ count,
           generate_random fuel first last mem (counting gen) (eng, count) =
           Some (mem, (eng, count)))
  ∧ (first = o_begin mem → last = o_end mem →
       generate_random_range fuel mem gen eng =
       (let* xs := draws (length mem) gen in rand_ret xs) eng)
  ∧ (∀ mem' eng',
       generate_random fuel first last mem gen eng = Some (mem', eng') →
       length mem' = length mem
       ∧ (∀ i, i < first ∨ last ≤ i → mem' !! i = mem !! i)
       ∧ (∀ i, i < last - first →
            ∃ x xs_i eng_i eng_i',
              mem' !! (first + i) = Some x
              ∧ draws i gen eng = Some (xs_i, eng_i)
              ∧ gen eng_i = Some (x, eng_i'))).
Proof.
  intros Hrange Hfuel.
  assert (∀ count,
    generate_random fuel first last mem (counting gen) (eng, count) =
    match generate_random fuel first last mem gen eng with
    | Some (mem', eng') => Some (mem', (eng', count + (last - first)))
    | None => None
    end) as Hcount.
  { intros count. rewrite !generate_random_draws by done.
    unfold rand_bind, rand_ret. rewrite draws_counting.
    by destruct (draws _ gen eng) as [[xs eng']|]. }
  assert (first = last →
    generate_random fuel first last mem gen eng = Some (mem, eng)) as Hempty.
  { intros ->. rewrite generate_random_draws by done.
    rewrite Nat.sub_diag. cbn. unfold rand_bind, rand_ret.
    by rewrite take_drop. }
  split; [by apply generate_random_draws|].
  split; [exact Hcount|]. split; [|split].
  - intros Heq. split; [by apply Hempty|].
    intros count. rewrite Hcount, Hempty by done.
    subst last. by rewrite Nat.sub_diag, Nat.add_0_r.
  - unfold o_begin, o_end. intros -> ->. unfold generate_random_range.
    unfold o_begin, o_end. rewrite generate_random_draws by done.
    unfold rand_bind, rand_ret. rewrite Nat.sub_0_r.
    destruct (draws _ gen eng) as [[xs eng']|] eqn:Hxs; [|done].
    rewrite take_0, drop_all, app_nil_r. done.
  - intros mem' eng'. by apply generate_random_lookup.
Qed.

Lemma generate_random_fills_range_witness :
  generate_random 3 1 3 [10; 20; 30; 40] (λ eng, Some (eng, S eng)) 7 =
    Some ([10; 7; 8; 40], 9)
  ∧ generate_random 3 1 3 [10; 20; 30; 40]
      (counting (λ eng, Some (eng, S eng))) (7, 0) =
    Some ([10; 7; 8; 40], (9, 2)).
Proof.
  pose proof (generate_random_fills_range (λ eng, Some (eng, S eng))
    [10; 20; 30; 40] 1 3 3 7 ltac:(cbn; lia) ltac:(cbn; lia))
    as (Hfill & Hcount & _).
  split.
  - exact Hfill.
  - rewrite (Hcount 0). reflexivity.
Defined.

(** ** Sequence and string distributions *)

Section sequences.
Context {std : Std_random} {order : Evaluation_order}.

Lemma random_sequence_call_draws Seq V (size gen : rand Engine value) eng :
  Value_type Seq = Some V →
  random_sequence_call Seq size gen eng =
  (let* v := size in
   match to_size v with
   | Some n => let* xs := draws n gen in rand_ret (V_seq xs)
   | None => rand_fail
   end) eng.
Proof.
  intros HV. unfold random_sequence_call. rewrite HV. unfold rand_bind.
  destruct (size eng) as [[v eng1]|]; [|done].
  destruct (to_size v) as [n|]; [|done].
  unfold make_random. by rewrite generate_draws, length_replicate.
Qed.

Lemma call_random_sequence Seq size gen :
  call (random_sequence_distribution Seq size gen) =
  random_sequence_call Seq (call size) (call gen).
Proof. reflexivity. Qed.

Lemma call_random_string Str size gen :
  call (random_string_distribution Str size gen) =
  random_sequence_call Str (call size) (call gen).
Proof. reflexivity. Qed.

Lemma call_uniform_int T a b eng :
  call (uniform_int_distribution T a b) eng =
  Some (V_int (uniform_int a b eng).1, (uniform_int a b eng).2).
Proof. cbn. by destruct (uniform_int a b eng). Qed.

(** Draws from a uniform integer distribution never fail and stay within
    its bounds. *)
Lemma draws_uniform_int T a b n eng :
  (a ≤ b)%Z →
  ∃ xs eng',
    draws n (call (uniform_int_distribution T a b)) eng = Some (xs, eng')
    ∧ Forall (λ x, ∃ z, x = V_int z ∧ (a ≤ z ≤ b)%Z) xs.
Proof.
  intros Hab. revert eng. induction n as [|n IH]; intros eng.
  - exists [], eng. by split.
  - cbn [draws]. unfold rand_bind at 1. rewrite call_uniform_int.
    destruct (IH (uniform_int a b eng).2) as (xs & eng' & Hxs & Hall).
    unfold rand_bind, rand_ret. rewrite Hxs. eexists _, _. split; [done|].
    constructor; [|done]. eexists. split; [done|].
    by apply uniform_int_range.
Qed.
End sequences.

(** C7: a call of a sequence distribution first draws a length [n] from the
    size distribution and then makes [n] draws from the element
    distribution, in this order on the engine; when they succeed it returns
    a new sequence of exactly [n] elements whose element at position [i] is
    the value of the element draw that [i] earlier element draws precede. *)
Theorem random_sequence_distribution_call {std : Std_random}
    {order : Evaluation_order}
    (Seq V : type) (size gen : dist) (eng eng1 : Engine) (n : Z) :
  Value_type Seq = Some V →
  call size eng = Some (V_int n, eng1) → (0 ≤ n)%Z →
  call (random_sequence_distribution Seq size gen) eng =
    (let* xs := draws (Z.to_nat n) (call gen) in rand_ret (V_seq xs)) eng1
  ∧ ∀ xs eng2,
      draws (Z.to_nat n) (call gen) eng1 = Some (xs, eng2) →
      call (random_sequence_distribution Seq size gen) eng
        = Some (V_seq xs, eng2)
      ∧ length xs = Z.to_nat n
      ∧ ∀ i x, xs !! i = Some x →
          ∃ eng_i eng_i',
            draws i (call gen) eng1 = Some (take i xs, eng_i)
            ∧ call gen eng_i = Some (x, eng_i').
Proof.
  intros HV Hsize Hn.
  assert (call (random_sequence_distribution Seq size gen) eng =
    (let* xs := draws (Z.to_nat n) (call gen) in rand_ret (V_seq xs)) eng1)
    as Hcall.
  { cbn [call]. rewrite (random_sequence_call_draws _ V) by done.
    unfold rand_bind at 1. rewrite Hsize. cbn [to_size].
    by rewrite decide_True. }
  split; [done|]. intros xs eng2 Hxs. split; [|split].
  - rewrite Hcall. unfold rand_bind, rand_ret. by rewrite Hxs.
  - by eapply draws_length.
  - intros i x Hx. by eapply draws_lookup.
Qed.

Lemma random_sequence_distribution_call_witness :
  call (std := minstd_rand) (order := left_to_right)
    (random_sequence_distribution (T_class true false (T_integer int))
       (single_value_distribution (V_int 2))
       (uniform_int_distribution (T_integer int) 0 9)) 1%Z
  = Some (V_seq [V_int 1; V_int 4], 182605794%Z).
Proof.
  pose proof (random_sequence_distribution_call (std := minstd_rand)
    (order := left_to_right)
    (T_class true false (T_integer int)) (T_integer int)
    (single_value_distribution (V_int 2))
    (uniform_int_distribution (T_integer int) 0 9) 1%Z 1%Z 2
    eq_refl eq_refl ltac:(lia)) as [Hcall _].
  rewrite Hcall. vm_compute. reflexivity.
Defined.

(** C6: a call of the default string distribution always returns a string;
    its length is between 0 and 32 and the code of each of its characters
    between 33 and 126, bounds included. *)
Theorem random_string_distribution_bounds {std : Std_random}
    {order : Evaluation_order}
    (C : type) (eng : Engine) :
  default_distribution (basic_string C)
    = Some (random_string_distribution_default C)
  ∧ ∃ xs eng',
      call (random_string_distribution_default C) eng = Some (V_seq xs, eng')
      ∧ length xs ≤ 32
      ∧ Forall (λ x, ∃ z, x = V_int z ∧ (33 ≤ z ≤ 126)%Z) xs.
Proof.
  split; [done|]. unfold random_string_distribution_default.
  rewrite call_random_string, (random_sequence_call_draws _ C) by done.
  unfold rand_bind at 1. rewrite call_uniform_int.
  pose proof (uniform_int_range 0 32 eng ltac:(lia)) as Hlen.
  set (n := (uniform_int 0 32 eng).1) in *. cbn [to_size].
  rewrite decide_True by lia.
  destruct (draws_uniform_int C 33 126 (Z.to_nat n) (uniform_int 0 32 eng).2
    ltac:(lia)) as (xs & eng' & Hxs & Hall).
  exists xs, eng'. unfold rand_bind, rand_ret. rewrite Hxs.
  split; [done|]. split; [|done].
  apply draws_length in Hxs. lia.
Qed.

Lemma random_string_distribution_bounds_witness :
  ∃ xs eng',
    call (std := minstd_rand) (order := left_to_right)
      (random_string_distribution_default (T_integer char)) 12345%Z
      = Some (V_seq xs, eng')
    ∧ length xs ≤ 32
    ∧ Forall (λ x, ∃ z, x = V_int z ∧ (33 ≤ z ≤ 126)%Z) xs.
Proof.
  exact (proj2 (random_string_distribution_bounds (std := minstd_rand)
    (order := left_to_right) (T_integer char) 12345%Z)).
Defined.

(** ** Structural equality *)

Lemma dist_eqb_components (x y : dist) :
  type_of x = type_of y → composite x = true →
  (dist_eqb x y = true ↔
   Forall2 (λ a b, dist_eqb a b = true) (components x) (components y)).
Proof.
  destruct x, y; cbn; try done; intros _ _.
  - split; [intros ?; by repeat constructor | by inversion 1].
  - rewrite andb_true_iff. split.
    + intros []. by repeat constructor.
    + inversion 1 as [|???? ? Hgen]. by inversion Hgen.
  - rewrite andb_true_iff. split.
    + intros []. by repeat constructor.
    + inversion 1 as [|???? ? Hgen]. by inversion Hgen.
  - apply list_eqb_Forall2.
Qed.

(** C9, as the code has it: two distributions of the same class-template
    specialisation, with no iterator-position distribution in them and no
    NaN stored in a single-value distribution, compare equal exactly when
    all their construction parameters are equal. A composite distribution,
    whatever it contains, compares equal to another of its type exactly
    when its component distributions (size and element distribution, inner
    distribution, tuple components) compare equal pair by pair in
    order. *)
Theorem distributions_equal_iff_parameters_equal (x y : dist) :
  type_of x = type_of y →
  (position_free x = true → nan_free x = true →
   (dist_eqb x y = true ↔ x = y))
  ∧ (composite x = true →
     (dist_eqb x y = true ↔
      Forall2 (λ a b, dist_eqb a b = true) (components x) (components y))).
Proof.
  intros Hty. split.
  - intros Hfree Hnan. by apply dist_eqb_eq.
  - by apply dist_eqb_components.
Qed.

Lemma distributions_equal_iff_parameters_equal_witness :
  dist_eqb (example_tuple_generator 9) (example_tuple_generator 9) = true
  ∧ dist_eqb (example_tuple_generator 9) (example_tuple_generator 8) = false
  ∧ dist_eqb
      (adapted_distribution (T_other 0) (random_iterator_distribution 5 0 0))
      (adapted_distribution (T_other 0) (random_iterator_distribution 5 0 3))
    = true.
Proof.
  split; [|split].
  - destruct (distributions_equal_iff_parameters_equal
      (example_tuple_generator 9) (example_tuple_generator 9) eq_refl)
      as [Hiff _].
    apply (Hiff eq_refl eq_refl). reflexivity.
  - destruct (distributions_equal_iff_parameters_equal
      (example_tuple_generator 9) (example_tuple_generator 8) eq_refl)
      as [Hiff _].
    apply not_true_is_false. intros Heq. apply (Hiff eq_refl eq_refl) in Heq.
    cbv [example_tuple_generator] in Heq. discriminate Heq.
  - destruct (distributions_equal_iff_parameters_equal
      (adapted_distribution (T_other 0) (random_iterator_distribution 5 0 0))
      (adapted_distribution (T_other 0) (random_iterator_distribution 5 0 3))
      eq_refl) as [_ Hcomponents].
    apply (Hcomponents eq_refl). by repeat constructor.
Defined.

(** C9, as stated, fails for a single-value distribution that holds a NaN:
    it has the parameter it has, and does not compare equal to itself. *)
Lemma single_value_distribution_nan :
  type_of (single_value_distribution V_nan)
    = type_of (single_value_distribution V_nan)
  ∧ position_free (single_value_distribution V_nan) = true
  ∧ dist_eqb (single_value_distribution V_nan)
      (single_value_distribution V_nan) = false
  ∧ ¬ (dist_eqb (single_value_distribution V_nan)
         (single_value_distribution V_nan) = true
       ↔ single_value_distribution V_nan = single_value_distribution V_nan).
Proof.
  split; [done|]. split; [done|]. split; [done|].
  intros [_ Heq]. specialize (Heq eq_refl). discriminate Heq.
Qed.

(** ** The default distribution facility *)

Lemma default_distribution_tuple (Args : list type) (dists : list dist) :
  Args ≠ [] →
  Forall2 (λ T d, default_distribution T = Some d) Args dists →
  default_distribution (tuple Args) = Some (random_tuple_generator dists).
Proof.
  intros HArgs Hall. apply mapM_Some in Hall as Hmap.
  change (default_distribution (tuple Args)) with
    (match mapM default_distribution Args with
     | Some dists => random_tuple_generator_default dists
     | None => None
     end).
  rewrite Hmap. destruct Hall; [done|]. reflexivity.
Qed.

Lemma default_distribution_deduced (T : type) :
  specialized T = false → default_distribution T = deduced_distribution T.
Proof. by destruct T. Qed.

Lemma deduced_distribution_sequence (T V : type) (d : dist) :
  Arithmetic T = false → Sequence T = true →
  Associative_container T = false →
  Value_type T = Some V → default_distribution V = Some d →
  deduced_distribution T = Some (random_sequence_distribution_default T d).
Proof.
  intros Harith Hseq Hassoc HV Hd.
  unfold deduced_distribution, traits.deduce_distribution,
    traits.udt_distribution.
  by rewrite Harith, Hseq, Hassoc, HV, Hd.
Qed.

(** No default distribution holds a value. *)
Lemma default_distribution_nan_free (T : type) (d : dist) :
  default_distribution T = Some d → nan_free d = true.
Proof.
  revert d. induction T as [| i | f | C _ | Args IH | s a V IH | n]
    using type_ind_nested; intros d.
  - by intros [= <-].
  - by intros [= <-].
  - by intros [= <-].
  - by intros [= <-].
  - change (default_distribution (tuple Args)) with
      (match mapM default_distribution Args with
       | Some dists => random_tuple_generator_default dists
       | None => None
       end).
    destruct (mapM default_distribution Args) as [dists|] eqn:Hmap; [|done].
    apply mapM_Some in Hmap. destruct dists as [|d0 dists]; [done|].
    intros [= <-]. cbn [nan_free].
    revert IH. revert Hmap. generalize (d0 :: dists) as ds.
    induction 1 as [|T d' Args ds HTd _ IHall]; intros Hall; [done|].
    inversion_clear Hall as [|? ? HT Hall']. cbn.
    by rewrite (HT d' HTd), IHall.
  - rewrite default_distribution_deduced by done.
    unfold deduced_distribution, traits.deduce_distribution,
      traits.udt_distribution. cbn.
    destruct s, a; try done.
    destruct (default_distribution V) as [g|] eqn:Hg; [|done].
    intros [= <-]. cbn. by rewrite (IH g).
  - done.
Qed.

(** C1: the registry resolves [bool] to the Bernoulli default, a string
    type to the string distribution default and a tuple type to a tuple
    generator over the defaults of its components; any other type goes by
    its category: integral to the uniform integral default, floating-point
    to the uniform floating-point default, sequence to the sequence default
    over the default of its element type, and a type of no category has no
    default. The exact rules come first:
    [bool] is integral and a string is a sequence, yet neither gets what
    its category gives; for a string that would have been the generic
    sequence default. *)
Theorem default_distribution_priority :
  default_distribution T_bool = Some std_bernoulli_distribution
  ∧ (∀ C, default_distribution (basic_string C)
            = Some (random_string_distribution_default C))
  ∧ (∀ Args dists,
       Args ≠ [] →
       Forall2 (λ T d, default_distribution T = Some d) Args dists →
       default_distribution (tuple Args)
         = Some (random_tuple_generator dists))
  ∧ (∀ T, specialized T = false →
          default_distribution T = deduced_distribution T)
  ∧ (∀ T, Integral T = true →
          deduced_distribution T = Some (std_uniform_int_distribution T))
  ∧ (∀ T, Floating_point T = true →
          deduced_distribution T = Some (std_uniform_real_distribution T))
  ∧ (∀ T V d,
       Arithmetic T = false → Sequence T = true →
       Associative_container T = false →
       Value_type T = Some V → default_distribution V = Some d →
       deduced_distribution T
         = Some (random_sequence_distribution_default T d))
  ∧ (∀ T, Arithmetic T = false →
          Sequence T = false ∨ Associative_container T = true →
          deduced_distribution T = None)
  ∧ (Integral T_bool = true
     ∧ default_distribution T_bool ≠ deduced_distribution T_bool)
  ∧ (∀ C,
       Sequence (basic_string C) = true
       ∧ (∀ d, default_distribution C = Some d →
               deduced_distribution (basic_string C)
                 = Some (random_sequence_distribution_default
                           (basic_string C) d))
       ∧ default_distribution (basic_string C)
           ≠ deduced_distribution (basic_string C)).
Proof.
  split; [done|]. split; [done|].
  split; [apply default_distribution_tuple|].
  split; [apply default_distribution_deduced|].
  split; [by intros [] |].
  split; [by intros [] |].
  split; [apply deduced_distribution_sequence|].
  split.
  { intros T Harith Hcat.
    unfold deduced_distribution, traits.deduce_distribution,
      traits.udt_distribution.
    rewrite Harith. destruct Hcat as [-> | ->]; [done|].
    by destruct (Sequence T). }
  split; [by split|].
  intros C. split; [done|]. split.
  - intros d Hd. by apply (deduced_distribution_sequence _ C).
  - unfold deduced_distribution. cbn.
    by destruct (default_distribution C).
Qed.

Lemma default_distribution_priority_witness :
  default_distribution (tuple [T_bool; basic_string (T_integer char)])
    = Some (random_tuple_generator
              [std_bernoulli_distribution;
               random_string_distribution_default (T_integer char)])
  ∧ default_distribution (T_integer unsigned_int)
      = Some (uniform_int_distribution (T_integer unsigned_int) 0 4294967295).
Proof.
  destruct default_distribution_priority
    as (Hbool & Hstring & Htuple & Hdeduced & Hint & _).
  split.
  - apply Htuple; [discriminate|].
    apply Forall2_cons; [exact Hbool|].
    apply Forall2_cons; [apply Hstring|]. apply Forall2_nil.
  - rewrite Hdeduced by reflexivity. rewrite Hint by reflexivity.
    reflexivity.
Defined.

(** ** The scalar defaults *)

(** C2, as the code has it: the default integral distribution of an
    integral type [T] is the uniform distribution over [0, max(T)], bounds
    included, with no parameter to give; every value it draws lies in that
    range, which is within the representable range of [T] and is the whole
    of it exactly when the least value of [T] is 0. *)
Theorem default_integral_distribution_range {std : Std_random}
    {order : Evaluation_order}
    (T : type) (eng : Engine) :
  Integral T = true →
  default_integral_distribution T
    = Some (uniform_int_distribution T 0 (numeric_limits_max T))
  ∧ (numeric_limits_min T ≤ 0 ≤ numeric_limits_max T)%Z
  ∧ (∃ z eng',
       call (uniform_int_distribution T 0 (numeric_limits_max T)) eng
         = Some (V_int z, eng')
       ∧ (0 ≤ z ≤ numeric_limits_max T)%Z)
  ∧ (default_integral_distribution T
       = Some (uniform_int_distribution T (numeric_limits_min T)
                 (numeric_limits_max T))
     ↔ numeric_limits_min T = 0%Z).
Proof.
  intros HT.
  assert (numeric_limits_min T ≤ 0 ≤ numeric_limits_max T)%Z as Hlim.
  { destruct T as [| i | | | | |]; try discriminate HT.
    - cbn. lia.
    - destruct i; vm_compute; split; discriminate. }
  assert (default_integral_distribution T
    = Some (uniform_int_distribution T 0 (numeric_limits_max T))) as Hget.
  { unfold default_integral_distribution. by rewrite HT. }
  split; [done|]. split; [done|]. split.
  - rewrite call_uniform_int. eexists _, _. split; [done|].
    apply uniform_int_range. lia.
  - rewrite Hget. split; [by intros [= <-] | by intros ->].
Qed.

Lemma default_integral_distribution_range_witness :
  default_integral_distribution (T_integer unsigned_char)
    = Some (uniform_int_distribution (T_integer unsigned_char) 0 255).
Proof.
  exact (proj1 (default_integral_distribution_range (std := minstd_rand)
    (order := left_to_right) (T_integer unsigned_char) 1%Z eq_refl)).
Defined.

(** C2, as stated, fails for [int]: its default distribution is over
    [0, 2147483647], and the least [int] is -2147483648. *)
Lemma default_integral_distribution_int :
  default_integral_distribution (T_integer int)
    = Some (uniform_int_distribution (T_integer int) 0 2147483647)
  ∧ numeric_limits_min (T_integer int) = (-2147483648)%Z
  ∧ default_integral_distribution (T_integer int)
      ≠ Some (uniform_int_distribution (T_integer int)
                (numeric_limits_min (T_integer int))
                (numeric_limits_max (T_integer int))).
Proof. repeat split. discriminate. Qed.

(** C3 on the code: the default floating-point distribution of [float],
    [double] and [long double] is the uniform distribution over [0, 1),
    while the least finite value of the type is negative and its largest
    is above 1. *)
Theorem default_floating_point_distribution_unit_interval
    (f : floating_type) :
  default_floating_point_distribution (T_floating f)
    = Some (uniform_real_distribution (T_floating f) 0 1)
  ∧ (floating_lowest f < 0)%Qc
  ∧ (1 < floating_max f)%Qc.
Proof. destruct f; repeat split. Qed.

(** ** The sequence default *)

(** C10: the default sequence distribution of a sequence type [Seq] with
    element type [V] is the sequence distribution whose size distribution
    is the uniform integer distribution over [0, 32] and whose element
    distribution is the registry default of [V]; it is what the registry
    gives for a sequence type that is not a string. A call of it draws a
    length [n] from that uniform distribution, [n] between 0 and 32, and
    then makes [n] draws from the registry default of [V], returning their
    values in order as a sequence of at most 32 elements. Two
    default-constructed ones compare equal. *)
Theorem default_sequence_distribution_sizes {std : Std_random}
    {order : Evaluation_order}
    (Seq V : type) (g : dist) (eng : Engine) :
  Value_type Seq = Some V → default_distribution V = Some g →
  default_sequence_distribution Seq (default_distribution V)
    = Some (random_sequence_distribution Seq
              (uniform_int_distribution (Size_type Seq) 0 32) g)
  ∧ (specialized Seq = false → Sequence Seq = true →
     Associative_container Seq = false →
     default_distribution Seq
       = default_sequence_distribution Seq (default_distribution V))
  ∧ (∃ n eng1,
       call (uniform_int_distribution (Size_type Seq) 0 32) eng
         = Some (V_int n, eng1)
       ∧ (0 ≤ n ≤ 32)%Z
       ∧ call (random_sequence_distribution Seq
                 (uniform_int_distribution (Size_type Seq) 0 32) g) eng
           = (let* xs := draws (Z.to_nat n) (call g) in
              rand_ret (V_seq xs)) eng1
       ∧ ∀ xs eng2,
           draws (Z.to_nat n) (call g) eng1 = Some (xs, eng2) →
           call (random_sequence_distribution Seq
                   (uniform_int_distribution (Size_type Seq) 0 32) g) eng
             = Some (V_seq xs, eng2)
           ∧ length xs = Z.to_nat n ∧ length xs ≤ 32
           ∧ ∀ i x, xs !! i = Some x →
               ∃ eng_i eng_i',
                 draws i (call g) eng1 = Some (take i xs, eng_i)
                 ∧ call g eng_i = Some (x, eng_i'))
  ∧ (∀ d1 d2,
       default_sequence_distribution Seq (default_distribution V) = Some d1 →
       default_sequence_distribution Seq (default_distribution V) = Some d2 →
       dist_eqb d1 d2 = true).
Proof.
  intros HV Hg. split; [by rewrite Hg|]. split; [|split].
  - intros Hspec Hseq Hassoc.
    rewrite default_distribution_deduced by done.
    assert (Arithmetic Seq = false) as Harith by by destruct Seq.
    rewrite (deduced_distribution_sequence Seq V g) by done.
    by rewrite Hg.
  - pose proof (uniform_int_range 0 32 eng ltac:(lia)) as Hn.
    exists (uniform_int 0 32 eng).1, (uniform_int 0 32 eng).2.
    split; [apply call_uniform_int|]. split; [done|].
    assert (call (random_sequence_distribution Seq
                    (uniform_int_distribution (Size_type Seq) 0 32) g) eng
            = (let* xs := draws (Z.to_nat (uniform_int 0 32 eng).1) (call g) in
               rand_ret (V_seq xs)) (uniform_int 0 32 eng).2) as Hcall.
    { rewrite call_random_sequence, (random_sequence_call_draws _ V) by done.
      unfold rand_bind at 1. rewrite call_uniform_int. cbn [to_size].
      by rewrite decide_True by lia. }
    split; [done|]. intros xs eng2 Hxs.
    pose proof (draws_length _ _ _ _ _ Hxs) as Hlen.
    split; [|split; [done|split; [lia|]]].
    + rewrite Hcall. unfold rand_bind, rand_ret. by rewrite Hxs.
    + intros i x Hx. by eapply draws_lookup.
  - intros d1 d2 H1 H2. rewrite Hg in H1, H2. cbn in H1, H2.
    injection H1 as <-. injection H2 as <-. apply dist_eqb_refl. cbn.
    by apply (default_distribution_nan_free V).
Qed.

Lemma default_sequence_distribution_sizes_witness :
  default_distribution (T_class true false (T_integer int))
    = Some (random_sequence_distribution (T_class true false (T_integer int))
              (uniform_int_distribution size_t 0 32)
              (uniform_int_distribution (T_integer int) 0 2147483647)).
Proof.
  destruct (default_sequence_distribution_sizes (std := minstd_rand)
    (order := left_to_right) (T_class true false (T_integer int)) (T_integer int)
    (uniform_int_distribution (T_integer int) 0 2147483647) 1%Z
    eq_refl eq_refl) as (Hget & Hreg & _).
  rewrite Hreg by reflexivity. exact Hget.
Defined.

(** ** The iterator-position distribution *)

(** C4, as the code has it: the constructor checks nothing. Over a
    non-empty container it yields the distribution of positions over
    [0, size - 1], and every call of that distribution returns an iterator
    that can be dereferenced in the container. *)
Theorem random_iterator_distribution_nonempty {std : Std_random}
    {order : Evaluation_order} (c : container) (eng : Engine) :
  elements c ≠ [] → (Z.of_nat (length (elements c)) < 2 ^ 64)%Z →
  random_iterator_distribution_ctor c
    = random_iterator_distribution (address c)
        0 (Z.of_nat (length (elements c)) - 1)
  ∧ ∃ v eng',
      call (random_iterator_distribution_ctor c) eng = Some (v, eng')
      ∧ dereferenceable c v.
Proof.
  intros Hne Hsize.
  assert (0 < length (elements c)) as Hlen.
  { destruct (elements c); [done | cbn; lia]. }
  assert (random_iterator_distribution_ctor c
    = random_iterator_distribution (address c)
        0 (Z.of_nat (length (elements c)) - 1)) as Hctor.
  { unfold random_iterator_distribution_ctor, size_wrap.
    by rewrite Z.mod_small by lia. }
  split; [done|]. rewrite Hctor. cbn [call].
  pose proof (uniform_int_range 0 (Z.of_nat (length (elements c)) - 1) eng
    ltac:(lia)) as Hk.
  destruct (uniform_int 0 _ eng) as [k eng']. cbn [fst] in Hk.
  exists (V_iterator (address c) k), eng'. split; [done|].
  exists k. split; [done | lia].
Qed.

Lemma random_iterator_distribution_nonempty_witness :
  random_iterator_distribution_ctor {| address := 5; elements := [V_int 7] |}
    = random_iterator_distribution 5 0 0.
Proof.
  exact (proj1 (random_iterator_distribution_nonempty (std := minstd_rand)
    (order := left_to_right) {| address := 5; elements := [V_int 7] |} 1%Z
    ltac:(discriminate) eq_refl)).
Defined.

(** C4, as stated, fails: over the empty container the constructor yields
    a distribution, with bounds 0 and [2 ^ 64 - 1], and a call of it
    returns an iterator, which is not one of the container. *)
Lemma random_iterator_distribution_empty_container :
  random_iterator_distribution_ctor empty_container
    = random_iterator_distribution 0 0 18446744073709551615
  ∧ call (std := minstd_rand) (order := left_to_right)
      (random_iterator_distribution_ctor empty_container) 1%Z
    = Some (V_iterator 0 48271, 48271%Z)
  ∧ ¬ dereferenceable empty_container (V_iterator 0 48271).
Proof.
  split; [reflexivity|]. split; [reflexivity|].
  intros (k & _ & Hk). cbn in Hk. lia.
Qed.

(** ** The tuple generator *)

Section tuples.
Context {std : Std_random} {order : Evaluation_order}.

Lemma argument_order_cases :
  argument_order = [0; 1; 2] ∨ argument_order = [0; 2; 1]
  ∨ argument_order = [1; 0; 2] ∨ argument_order = [1; 2; 0]
  ∨ argument_order = [2; 0; 1] ∨ argument_order = [2; 1; 0].
Proof.
  pose proof argument_order_perm as Hperm. symmetry in Hperm.
  apply permutations_Permutation in Hperm.
  change (permutations [0; 1; 2]) with
    [[0; 1; 2]; [1; 0; 2]; [1; 2; 0]; [0; 2; 1]; [2; 0; 1]; [2; 1; 0]]
    in Hperm.
  repeat (apply elem_of_cons in Hperm as [->|Hperm]); auto 10.
  by apply elem_of_nil in Hperm.
Qed.

Lemma call_random_tuple_2 d0 d1 :
  call (random_tuple_generator [d0; d1]) =
  generate_D1_D2 (call d0) (call d1).
Proof. reflexivity. Qed.

Lemma call_random_tuple_3 d0 d1 d2 :
  call (random_tuple_generator [d0; d1; d2]) =
  generate_D1_D2_D3 (call d0) (call d1) (call d2).
Proof. reflexivity. Qed.

(** With the arguments evaluated in the order written. *)
Lemma generate_D1_D2_D3_left_to_right (g0 g1 g2 : rand Engine value) eng :
  argument_order = [0; 1; 2] →
  generate_D1_D2_D3 g0 g1 g2 eng =
  (let* x0 := g0 in
   let* x1 := g1 in
   let* x2 := g2 in
   rand_ret (V_tuple [x0; x1; x2])) eng.
Proof.
  intros Horder. unfold generate_D1_D2_D3. rewrite Horder. cbn.
  unfold rand_bind, rand_ret.
  destruct (g0 eng) as [[x0 e0]|]; [|done].
  destruct (g1 e0) as [[x1 e1]|]; [|done].
  by destruct (g2 e1) as [[x2 e2]|].
Qed.

(** In each admissible order: the three draws are made one after the other
    on the engine, in the order of evaluation, and the values put in field
    order. *)
Lemma generate_D1_D2_D3_orders (g0 g1 g2 : rand Engine value) eng :
  (argument_order = [0; 1; 2] →
   generate_D1_D2_D3 g0 g1 g2 eng =
   (let* x0 := g0 in
    let* x1 := g1 in
    let* x2 := g2 in
    rand_ret (V_tuple [x0; x1; x2])) eng)
  ∧ (argument_order = [0; 2; 1] →
   generate_D1_D2_D3 g0 g1 g2 eng =
   (let* x0 := g0 in
    let* x2 := g2 in
    let* x1 := g1 in
    rand_ret (V_tuple [x0; x1; x2])) eng)
  ∧ (argument_order = [1; 0; 2] →
   generate_D1_D2_D3 g0 g1 g2 eng =
   (let* x1 := g1 in
    let* x0 := g0 in
    let* x2 := g2 in
    rand_ret (V_tuple [x0; x1; x2])) eng)
  ∧ (argument_order = [1; 2; 0] →
   generate_D1_D2_D3 g0 g1 g2 eng =
   (let* x1 := g1 in
    let* x2 := g2 in
    let* x0 := g0 in
    rand_ret (V_tuple [x0; x1; x2])) eng)
  ∧ (argument_order = [2; 0; 1] →
   generate_D1_D2_D3 g0 g1 g2 eng =
   (let* x2 := g2 in
    let* x0 := g0 in
    let* x1 := g1 in
    rand_ret (V_tuple [x0; x1; x2])) eng)
  ∧ (argument_order = [2; 1; 0] →
   generate_D1_D2_D3 g0 g1 g2 eng =
   (let* x2 := g2 in
    let* x1 := g1 in
    let* x0 := g0 in
    rand_ret (V_tuple [x0; x1; x2])) eng).
Proof.
  repeat split; intros Horder; unfold generate_D1_D2_D3; rewrite Horder; cbn;
    unfold rand_bind, rand_ret;
    repeat match goal with
    | |- context [match ?g ?e with _ => _ end] =>
        lazymatch g with
        | g0 => idtac | g1 => idtac | g2 => idtac
        end;
        destruct (g e) as [[? ?]|]; [|done]
    end;
    done.
Qed.

(** Whatever the order, every component is the value of a call of its own
    distribution. *)
Lemma generate_D1_D2_D3_components (g0 g1 g2 : rand Engine value) eng v eng' :
  generate_D1_D2_D3 g0 g1 g2 eng = Some (v, eng') →
  ∃ x0 x1 x2,
    v = V_tuple [x0; x1; x2]
    ∧ (∃ e e', g0 e = Some (x0, e'))
    ∧ (∃ e e', g1 e = Some (x1, e'))
    ∧ (∃ e e', g2 e = Some (x2, e')).
Proof.
  unfold generate_D1_D2_D3.
  destruct argument_order_cases as [-> | [-> | [-> | [-> | [-> | ->]]]]]; cbn;
    unfold rand_bind, rand_ret;
    repeat match goal with
    | |- context [match ?g ?e with _ => _ end] =>
        lazymatch g with
        | g0 => idtac | g1 => idtac | g2 => idtac
        end;
        let Heq := fresh "Hg" in
        destruct (g e) as [[? ?]|] eqn:Heq; [|done]
    end;
    cbn; intros [= <- <-]; eauto 15.
Qed.

Lemma generate_D1_D2_D3_total (g0 g1 g2 : rand Engine value) eng :
  (∀ e, is_Some (g0 e)) → (∀ e, is_Some (g1 e)) → (∀ e, is_Some (g2 e)) →
  is_Some (generate_D1_D2_D3 g0 g1 g2 eng).
Proof.
  intros H0' H1' H2'. unfold generate_D1_D2_D3.
  destruct argument_order_cases as [-> | [-> | [-> | [-> | [-> | ->]]]]]; cbn;
    unfold rand_bind, rand_ret;
    repeat match goal with
    | |- context [match ?g ?e with _ => _ end] =>
        lazymatch g with
        | g0 => destruct (H0' e) as [[? ?] ->]
        | g1 => destruct (H1' e) as [[? ?] ->]
        | g2 => destruct (H2' e) as [[? ?] ->]
        end
    end;
    cbn; eauto.
Qed.
End tuples.

(** C5, as the code has it. A tuple generator over two distributions draws
    from the first, then from the second, and returns the pair of the two
    values. Over three distributions it makes three draws one after the
    other on the engine, one from each distribution, in the order in which
    the compiler evaluates the three arguments of a call, and returns the
    triple whose components are the values drawn from the first, the
    second and the third distribution; the call succeeds when the three
    draws do; the draws are made in field order when the compiler
    evaluates the arguments in the order written. Over four distributions
    or more a call yields no value. *)
Theorem random_tuple_generator_call {std : Std_random}
    {order : Evaluation_order}
    (d0 d1 d2 : dist) (eng : Engine) :
  call (random_tuple_generator [d0; d1]) eng =
    (let* x0 := call d0 in
     let* x1 := call d1 in
     rand_ret (V_tuple [x0; x1])) eng
  ∧ (argument_order = [0; 1; 2] →
     call (random_tuple_generator [d0; d1; d2]) eng =
       (let* x0 := call d0 in
        let* x1 := call d1 in
        let* x2 := call d2 in
        rand_ret (V_tuple [x0; x1; x2])) eng)
  ∧ (∀ v eng',
       call (random_tuple_generator [d0; d1; d2]) eng = Some (v, eng') →
       ∃ x0 x1 x2,
         v = V_tuple [x0; x1; x2]
         ∧ (∃ e e', call d0 e = Some (x0, e'))
         ∧ (∃ e e', call d1 e = Some (x1, e'))
         ∧ (∃ e e', call d2 e = Some (x2, e')))
  ∧ ((∀ e, is_Some (call d0 e)) → (∀ e, is_Some (call d1 e)) →
     (∀ e, is_Some (call d2 e)) →
     is_Some (call (random_tuple_generator [d0; d1; d2]) eng))
  ∧ (∀ ds, 4 ≤ length ds → call (random_tuple_generator ds) eng = None)
  ∧ ((argument_order = [0; 1; 2]
      ∧ call (random_tuple_generator [d0; d1; d2]) eng =
        (let* x0 := call d0 in
         let* x1 := call d1 in
         let* x2 := call d2 in
         rand_ret (V_tuple [x0; x1; x2])) eng)
     ∨ (argument_order = [0; 2; 1]
      ∧ call (random_tuple_generator [d0; d1; d2]) eng =
        (let* x0 := call d0 in
         let* x2 := call d2 in
         let* x1 := call d1 in
         rand_ret (V_tuple [x0; x1; x2])) eng)
     ∨ (argument_order = [1; 0; 2]
      ∧ call (random_tuple_generator [d0; d1; d2]) eng =
        (let* x1 := call d1 in
         let* x0 := call d0 in
         let* x2 := call d2 in
         rand_ret (V_tuple [x0; x1; x2])) eng)
     ∨ (argument_order = [1; 2; 0]
      ∧ call (random_tuple_generator [d0; d1; d2]) eng =
        (let* x1 := call d1 in
         let* x2 := call d2 in
         let* x0 := call d0 in
         rand_ret (V_tuple [x0; x1; x2])) eng)
     ∨ (argument_order = [2; 0; 1]
      ∧ call (random_tuple_generator [d0; d1; d2]) eng =
        (let* x2 := call d2 in
         let* x0 := call d0 in
         let* x1 := call d1 in
         rand_ret (V_tuple [x0; x1; x2])) eng)
     ∨ (argument_order = [2; 1; 0]
      ∧ call (random_tuple_generator [d0; d1; d2]) eng =
        (let* x2 := call d2 in
         let* x1 := call d1 in
         let* x0 := call d0 in
         rand_ret (V_tuple [x0; x1; x2])) eng)).
Proof.
  split; [reflexivity|]. rewrite call_random_tuple_3.
  split; [|split; [|split; [|split]]].
  - apply generate_D1_D2_D3_left_to_right.
  - apply generate_D1_D2_D3_components.
  - apply generate_D1_D2_D3_total.
  - intros [|a [|b [|c [|d ds]]]] Hlen; cbn in Hlen; try lia. reflexivity.
  - destruct (generate_D1_D2_D3_orders (call d0) (call d1) (call d2) eng)
      as (H012 & H021 & H102 & H120 & H201 & H210).
    destruct argument_order_cases as [H | [H | [H | [H | [H | H]]]]].
    + left. split; [exact H | by apply H012].
    + right; left. split; [exact H | by apply H021].
    + do 2 right; left. split; [exact H | by apply H102].
    + do 3 right; left. split; [exact H | by apply H120].
    + do 4 right; left. split; [exact H | by apply H201].
    + do 5 right. split; [exact H | by apply H210].
Qed.

Lemma random_tuple_generator_call_witness :
  call (std := minstd_rand) (order := left_to_right)
    (random_tuple_generator
       [uniform_int_distribution (T_integer int) 0 9;
        single_value_distribution (V_bool true);
        uniform_int_distribution (T_integer int) 0 9]) 12345%Z
  = Some (V_tuple [V_int 5; V_bool true; V_int 7], 1558181227%Z).
Proof.
  destruct (random_tuple_generator_call (std := minstd_rand)
    (order := left_to_right)
    (uniform_int_distribution (T_integer int) 0 9)
    (single_value_distribution (V_bool true))
    (uniform_int_distribution (T_integer int) 0 9) 12345%Z)
    as (_ & Hthree & _).
  rewrite Hthree by reflexivity. reflexivity.
Defined.

(** C5, as stated, fails at arity 4: the registry gives
    [std::tuple<bool, bool, bool, bool>] a tuple generator, and a call of
    it yields no value, there being no [generate] for four
    distributions. *)
Lemma random_tuple_generator_arity_4 :
  default_distribution (tuple [T_bool; T_bool; T_bool; T_bool])
    = Some (random_tuple_generator
              [std_bernoulli_distribution; std_bernoulli_distribution;
               std_bernoulli_distribution; std_bernoulli_distribution])
  ∧ call (std := minstd_rand) (order := left_to_right)
      (random_tuple_generator
         [std_bernoulli_distribution; std_bernoulli_distribution;
          std_bernoulli_distribution; std_bernoulli_distribution]) 1%Z
    = None.
Proof. split; reflexivity. Qed.

(** Where the compiler evaluates the arguments of a call from the last to
    the first, the generator over three distributions draws the third
    component first. *)
Lemma random_tuple_generator_right_to_left :
  call (std := minstd_rand) (order := right_to_left)
    (random_tuple_generator
       [uniform_int_distribution (T_integer int) 0 9;
        uniform_int_distribution (T_integer int) 0 9;
        uniform_int_distribution (T_integer int) 0 9]) 12345%Z
  = Some (V_tuple [V_int 9; V_int 7; V_int 5], 1498755989%Z)
  ∧ call (std := minstd_rand) (order := left_to_right)
      (random_tuple_generator
         [uniform_int_distribution (T_integer int) 0 9;
          uniform_int_distribution (T_integer int) 0 9;
          uniform_int_distribution (T_integer int) 0 9]) 12345%Z
    = Some (V_tuple [V_int 5; V_int 7; V_int 9], 1498755989%Z).
Proof. split; reflexivity. Qed.

(** The generator over one distribution yields no value. *)
Lemma random_tuple_generator_arity_1 {std : Std_random}
    {order : Evaluation_order}
    (d : dist) (eng : Engine) :
  call (random_tuple_generator [d]) eng = None.
Proof. reflexivity. Qed.

(** * Further properties of the header *)

(** ** Bulk fill, continued *)

Section more_draws.
Context {E A : Type}.
Implicit Types (gen : rand E A) (eng : E).

Lemma draws_add gen n m eng :
  draws (n + m) gen eng =
  (let* xs := draws n gen in
   let* ys := draws m gen in
   rand_ret (xs ++ ys)) eng.
Proof.
  revert eng. induction n as [|n IH]; intros eng; cbn.
  - unfold rand_bind, rand_ret. by destruct (draws m gen eng) as [[ys e]|].
  - unfold rand_bind, rand_ret. destruct (gen eng) as [[x e1]|]; [|done].
    rewrite IH. unfold rand_bind, rand_ret.
    destruct (draws n gen e1) as [[xs e2]|]; [|done].
    by destruct (draws m gen e2) as [[ys e3]|].
Qed.

(** [n] draws from a generator that never fails. *)
Lemma draws_total gen (P : A → Prop) n eng :
  (∀ e, ∃ x e', gen e = Some (x, e') ∧ P x) →
  ∃ xs eng', draws n gen eng = Some (xs, eng') ∧ Forall P xs.
Proof.
  intros Hgen. revert eng. induction n as [|n IH]; intros eng.
  - exists [], eng. by split.
  - destruct (Hgen eng) as (x & e1 & Hx & HP).
    destruct (IH e1) as (xs & e2 & Hxs & Hall).
    exists (x :: xs), e2. cbn. unfold rand_bind, rand_ret.
    rewrite Hx, Hxs. split; [done | by constructor].
Qed.

Lemma generate_random_split_draws gen fuel first mid last (mem : list A) eng :
  first ≤ mid → mid ≤ last → last ≤ length mem → last - first < fuel →
  (let* mem1 := generate_random fuel first mid mem gen in
   generate_random fuel mid last mem1 gen) eng
  = generate_random fuel first last mem gen eng.
Proof.
  intros Hfm Hml Hlen Hfuel.
  rewrite (generate_random_draws gen fuel first last) by lia.
  unfold rand_bind, rand_ret. rewrite generate_random_draws by lia.
  unfold rand_bind, rand_ret.
  replace (last - first) with ((mid - first) + (last - mid)) by lia.
  rewrite draws_add. unfold rand_bind, rand_ret.
  destruct (draws (mid - first) gen eng) as [[xs e1]|] eqn:Hxs; [|done].
  pose proof (draws_length _ _ _ _ _ Hxs) as Hlxs.
  assert (length (take first mem) = first) as Htake
    by (rewrite length_take; lia).
  rewrite generate_random_draws
    by (rewrite ?length_app, ?Htake, ?length_drop; lia).
  unfold rand_bind, rand_ret.
  destruct (draws (last - mid) gen e1) as [[ys e2]|]; [|done].
  do 2 f_equal.
  rewrite (app_assoc (take first mem) xs).
  rewrite take_app_length' by (rewrite length_app; lia).
  replace last with ((first + (mid - first)) + (last - mid)) at 1 by lia.
  rewrite drop_app_add' by (rewrite length_app; lia).
  rewrite drop_drop. replace (mid + (last - mid)) with last by lia.
  by rewrite <- !app_assoc.
Qed.
End more_draws.

(** X1: filling [first, mid) and then [mid, last), the second fill going on
    with the engine the first one leaves, is filling [first, last) at
    once. *)
Theorem generate_random_split {E A} (gen : rand E A) (mem : list A)
    (first mid last fuel : nat) (eng : E) :
  first ≤ mid → mid ≤ last → last ≤ length mem → last - first < fuel →
  (let* mem1 := generate_random fuel first mid mem gen in
   generate_random fuel mid last mem1 gen) eng
  = generate_random fuel first last mem gen eng.
Proof. apply generate_random_split_draws. Qed.

Lemma generate_random_split_witness :
  (let* mem1 := generate_random 5 0 2 [0; 0; 0; 0]
                  (λ eng, Some (eng, S eng)) in
   generate_random 5 2 4 mem1 (λ eng, Some (eng, S eng))) 7
  = generate_random 5 0 4 [0; 0; 0; 0] (λ eng, Some (eng, S eng)) 7.
Proof.
  apply (generate_random_split (λ eng, Some (eng, S eng)) [0; 0; 0; 0]
    0 2 4 5 7); cbn; lia.
Defined.

(** ** Single-value and adapted distributions *)

Section leaves.
Context {std : Std_random} {order : Evaluation_order}.

Lemma draws_single_value (x : value) n eng :
  draws n (call (single_value_distribution x)) eng
  = Some (replicate n x, eng).
Proof.
  induction n as [|n IH]; cbn in *; [done|].
  unfold rand_bind, rand_ret in *. by rewrite IH.
Qed.

Lemma draws_adapted (Result : type) (d : dist) n eng :
  draws n (call (adapted_distribution Result d)) eng
  = match draws n (call d) eng with
    | Some (xs, eng') => Some ((λ x, V_object Result [x]) <$> xs, eng')
    | None => None
    end.
Proof.
  revert eng. induction n as [|n IH]; intros eng; [done|].
  cbn [draws call]. unfold rand_bind, rand_ret.
  destruct (call d eng) as [[x e1]|]; [|done]. rewrite IH.
  by destruct (draws n (call d) e1) as [[xs e2]|].
Qed.
End leaves.

(** X3: filling a range from a single-value distribution stores the value
    at every position of the range and leaves the engine as it was: the
    distribution never draws from it. *)
Theorem single_value_distribution_fill {std : Std_random}
    {order : Evaluation_order}
    (x : value) (mem : list value) (first last fuel : nat) (eng : Engine) :
  first ≤ last ≤ length mem → last - first < fuel →
  generate_random fuel first last mem
    (call (single_value_distribution x)) eng
  = Some (take first mem ++ replicate (last - first) x ++ drop last mem, eng).
Proof.
  intros Hrange Hfuel. rewrite generate_random_draws by done.
  unfold rand_bind, rand_ret. by rewrite draws_single_value.
Qed.

Lemma single_value_distribution_fill_witness :
  generate_random 3 1 3 [V_int 0; V_int 0; V_int 0; V_int 0]
    (call (std := minstd_rand) (order := left_to_right)
       (single_value_distribution (V_bool true))) 12345%Z
  = Some ([V_int 0; V_bool true; V_bool true; V_int 0], 12345%Z).
Proof.
  apply (single_value_distribution_fill (std := minstd_rand)
    (order := left_to_right) (V_bool true)
    [V_int 0; V_int 0; V_int 0; V_int 0] 1 3 3 12345%Z); cbn; lia.
Defined.

(** X4: [n] draws from an adapted distribution are [n] draws from the
    distribution it wraps, each value converted to the result type; the
    adapted distribution draws from the engine exactly what the inner one
    does and fails exactly where it does. *)
Theorem adapted_distribution_draws {std : Std_random}
    {order : Evaluation_order}
    (Result : type) (d : dist) (n : nat) (eng : Engine) :
  draws n (call (adapted_distribution Result d)) eng
  = match draws n (call d) eng with
    | Some (xs, eng') => Some ((λ x, V_object Result [x]) <$> xs, eng')
    | None => None
    end.
Proof. apply draws_adapted. Qed.

(** ** Random variables *)

Section random_variable.
Context {std : Std_random} {order : Evaluation_order}.

(** [random_variable<Eng, Dist>] with [Eng] and [Dist] object types: the
    engine and the distribution are held by value. The projections are the
    accessors [engine()] and [distribution()]. *)
Record random_variable : Type :=
  { engine : Engine; distribution : dist }.

(** [random_variable(Eng e, Dist d) : eng(e), dist(d)] *)
Definition random_variable_ctor (e : Engine) (d : dist) : random_variable :=
  {| engine := e; distribution := d |}.

(** [result_type operator()() { return dist(eng); }]: the call changes the
    engine held. *)
Definition random_variable_call : rand random_variable value :=
  λ v, match call (distribution v) (engine v) with
       | Some (x, eng') =>
           Some (x, {| engine := eng'; distribution := distribution v |})
       | None => None
       end.

(** [make_random(eng, dist)] called with rvalues: [{eng, dist}]. *)
Definition make_random_by_value (eng : Engine) (dist : dist)
    : random_variable :=
  random_variable_ctor eng dist.

(** [make_random<T>(eng)] called with an rvalue:
    [{eng, default_distribution<T>()}]. *)
Definition make_random_default (T : type) (eng : Engine)
    : option random_variable :=
  match default_distribution T with
  | Some d => Some (random_variable_ctor eng d)
  | None => None
  end.

Lemma draws_random_variable (v : random_variable) n :
  draws n random_variable_call v
  = match draws n (call (distribution v)) (engine v) with
    | Some (xs, eng') =>
        Some (xs, {| engine := eng'; distribution := distribution v |})
    | None => None
    end.
Proof.
  revert v. induction n as [|n IH]; intros [e d]; [done|].
  cbn [draws]. unfold rand_bind, rand_ret, random_variable_call. cbn.
  destruct (call d e) as [[x e1]|]; [|done]. rewrite IH. cbn.
  by destruct (draws n (call d) e1) as [[xs e2]|].
Qed.
End random_variable.

(** X5: [n] calls of a random variable return the values of [n] draws of
    its distribution from its engine; afterwards it holds the engine those
    draws leave and the distribution it was built with. The random variable
    [make_random<T>(eng)] is the one over [eng] and the default
    distribution of [T]. *)
Theorem random_variable_calls {std : Std_random} {order : Evaluation_order}
    (v : random_variable) (n : nat) :
  draws n random_variable_call v
    = match draws n (call (distribution v)) (engine v) with
      | Some (xs, eng') =>
          Some (xs, {| engine := eng'; distribution := distribution v |})
      | None => None
      end
  ∧ (∀ T d eng,
       default_distribution T = Some d →
       make_random_default T eng = Some (make_random_by_value eng d)).
Proof.
  split; [apply draws_random_variable|].
  intros T d eng Hd. unfold make_random_default. by rewrite Hd.
Qed.

Lemma random_variable_calls_witness :
  draws 2 (random_variable_call (std := minstd_rand) (order := left_to_right))
    (make_random_by_value 12345%Z
       (uniform_int_distribution (T_integer int) 0 9))
  = Some ([V_int 5; V_int 7],
          make_random_by_value 1558181227%Z
            (uniform_int_distribution (T_integer int) 0 9)).
Proof.
  rewrite (proj1 (random_variable_calls (std := minstd_rand)
    (order := left_to_right) _ 2)).
  reflexivity.
Defined.

(** ** The generator stream (sandbox/stream/stream.hpp) *)

Section igenstream.
Context {Own Ext A : Type}.

(** A generating function object of type [Gen]. A call [gen()] may change
    the state the object holds itself ([Own], copied when the object is
    copied) and the state it only refers to ([Ext], which its copies
    share). The stream holds its [gen] by value: [Own] is the state of the
    stream. *)
Context (gen : rand (Own * Ext) A).

(** [std::generate(first, last, g)], the standard algorithm: it assigns the
    results of successive calls of [g] to the positions of [first, last) in
    order, the loop of [generate_random] for a nullary [g]. *)
Definition std_generate (fuel first last : nat) (mem : list A)
    (g : rand (Own * Ext) A) : rand (Own * Ext) (list A) :=
  generate_random fuel first last mem g.

(** [value_type get() { return gen(); }] *)
Definition igenstream_get : rand (Own * Ext) A := gen.

(** [get(I first, I last) { std::generate(first, last, gen); return *this; }]
    [std::generate] takes its generator by value: the calls are made on a
    copy of [gen], whose own state is dropped at the end. *)
Definition igenstream_get_range (fuel first last : nat) (mem : list A)
    : rand (Own * Ext) (list A) :=
  λ '(own, ext),
    match std_generate fuel first last mem gen (own, ext) with
    | Some (mem', (_, ext')) => Some (mem', (own, ext'))
    | None => None
    end.

(** [get(R&& range) { return get(begin(range), end(range)); }] *)
Definition igenstream_get_all (fuel : nat) (range : list A)
    : rand (Own * Ext) (list A) :=
  igenstream_get_range fuel 0 (length range) range.

(** [ignore(size_type n) { while (n != 0) { (void)gen(); --n; } }] *)
Fixpoint igenstream_ignore (n : nat) : rand (Own * Ext) unit :=
  match n with
  | O => rand_ret tt
  | S n' => let* _ := gen in igenstream_ignore n'
  end.

Lemma igenstream_ignore_draws n st :
  igenstream_ignore n st = (let* _ := draws n gen in rand_ret tt) st.
Proof.
  revert st. induction n as [|n IH]; intros st; cbn; [done|].
  unfold rand_bind, rand_ret. destruct (gen st) as [[x st1]|]; [|done].
  rewrite IH. unfold rand_bind, rand_ret.
  by destruct (draws n gen st1) as [[xs st2]|].
Qed.

Lemma igenstream_ignore_get n st xs x st' :
  draws (S n) gen st = Some (xs, st') → list.last xs = Some x →
  (let* _ := igenstream_ignore n in igenstream_get) st = Some (x, st').
Proof.
  replace (S n) with (n + 1) by lia. rewrite draws_add.
  unfold rand_bind at 1 3. rewrite igenstream_ignore_draws.
  unfold rand_bind, rand_ret, igenstream_get. cbn.
  unfold rand_bind, rand_ret.
  destruct (draws n gen st) as [[ys st1]|]; [|done].
  destruct (gen st1) as [[y st2]|]; [|done].
  intros [= <- <-]. rewrite last_snoc. by intros [= ->].
Qed.

Lemma igenstream_get_range_draws fuel first last (mem : list A) own ext :
  first ≤ last ≤ length mem → last - first < fuel →
  igenstream_get_range fuel first last mem (own, ext)
  = match draws (last - first) gen (own, ext) with
    | Some (xs, (_, ext')) =>
        Some (take first mem ++ xs ++ drop last mem, (own, ext'))
    | None => None
    end.
Proof.
  intros Hrange Hfuel. unfold igenstream_get_range, std_generate.
  rewrite generate_random_draws by done. unfold rand_bind, rand_ret.
  by destruct (draws _ gen (own, ext)) as [[xs [own' ext']]|].
Qed.

(** A generator all of whose state is its own leaves [Ext] as it is. *)
Definition self_contained : Prop :=
  ∀ own ext x own' ext',
    gen (own, ext) = Some (x, (own', ext')) → ext' = ext.

Lemma draws_self_contained n own ext xs own' ext' :
  self_contained →
  draws n gen (own, ext) = Some (xs, (own', ext')) → ext' = ext.
Proof.
  intros Hself. revert own xs. induction n as [|n IH]; intros own xs; cbn.
  - unfold rand_ret. by intros [= _ _ ->].
  - unfold rand_bind, rand_ret.
    destruct (gen (own, ext)) as [[y [own1 ext1]]|] eqn:Hy; [|done].
    apply Hself in Hy as ->.
    destruct (draws n gen (own1, ext)) as [[ys [own2 ext2]]|] eqn:Hys;
      [|done].
    intros [= _ <- <-]. by eapply IH.
Qed.

Lemma igenstream_get_range_repeats fuel first last (mem mem' : list A)
    own ext st' x st1 :
  self_contained →
  first < last → last ≤ length mem → last - first < fuel →
  igenstream_get (own, ext) = Some (x, st1) →
  igenstream_get_range fuel first last mem (own, ext) = Some (mem', st') →
  st' = (own, ext) ∧ mem' !! first = Some x
  ∧ igenstream_get st' = Some (x, st1).
Proof.
  intros Hself Hlt Hlen Hfuel Hget.
  rewrite igenstream_get_range_draws by lia.
  destruct (draws _ gen (own, ext)) as [[xs [own' ext']]|] eqn:Hxs; [|done].
  intros [= <- <-]. apply draws_self_contained in Hxs as Hext; [|done].
  subst ext'. split; [done|].
  pose proof (draws_length _ _ _ _ _ Hxs) as Hlxs.
  assert (xs !! 0 = Some x) as Hx.
  { destruct (last - first) as [|n] eqn:Hn; [lia|]. cbn in Hxs.
    unfold rand_bind, rand_ret in Hxs. unfold igenstream_get in Hget.
    rewrite Hget in Hxs. destruct (draws n gen st1) as [[ys st2]|]; [|done].
    by injection Hxs as <- _. }
  split; [|done].
  rewrite lookup_app_r by (rewrite length_take; lia).
  rewrite length_take, Nat.min_l, Nat.sub_diag by lia.
  by rewrite lookup_app_l by lia.
Qed.
End igenstream.

(** X6: [ignore(n)] makes the [n] calls of the generator that [n] calls of
    [get()] make and keeps none of the values: the [get()] after it returns
    the last of the next [n + 1] values of the generator. *)
Theorem igenstream_ignore_then_get {Own Ext A} (gen : rand (Own * Ext) A)
    (n : nat) (st st' : Own * Ext) (xs : list A) (x : A) :
  draws (S n) gen st = Some (xs, st') → list.last xs = Some x →
  igenstream_ignore gen n st = (let* _ := draws n gen in rand_ret tt) st
  ∧ (let* _ := igenstream_ignore gen n in igenstream_get gen) st
    = Some (x, st').
Proof.
  intros Hxs Hx. split.
  - apply igenstream_ignore_draws.
  - by eapply igenstream_ignore_get.
Qed.

Lemma igenstream_ignore_then_get_witness :
  (let* _ := igenstream_ignore (λ '(own, ext), Some (own, (S own, ext))) 2 in
   igenstream_get (λ '(own, ext), Some (own, (S own, ext)))) (5, tt)
  = Some (7, (8, tt)).
Proof.
  exact (proj2 (igenstream_ignore_then_get
    (λ '(own, ext), Some (own, (S own, ext))) 2 (5, tt) (8, tt) [5; 6; 7] 7
    eq_refl eq_refl)).
Defined.

(** X7: [get(first, last)] stores the next values of the generator at the
    positions of the range in order, and works on a copy of the generator:
    the state the stream's generator holds itself is afterwards what it
    was before, only state the generator refers to has moved on. *)
Theorem igenstream_get_range_copy {Own Ext A} (gen : rand (Own * Ext) A)
    (fuel first last : nat) (mem : list A) (own : Own) (ext : Ext) :
  first ≤ last ≤ length mem → last - first < fuel →
  igenstream_get_range gen fuel first last mem (own, ext)
  = match draws (last - first) gen (own, ext) with
    | Some (xs, (_, ext')) =>
        Some (take first mem ++ xs ++ drop last mem, (own, ext'))
    | None => None
    end.
Proof. apply igenstream_get_range_draws. Qed.

Lemma igenstream_get_range_copy_witness :
  igenstream_get_range (λ '(own, ext), Some (own + ext, (S own, S ext)))
    3 0 2 [0; 0; 0] (10, 100)
  = Some ([110; 112; 0], (10, 102)).
Proof.
  rewrite (igenstream_get_range_copy
    (λ '(own, ext), Some (own + ext, (S own, S ext))) 3 0 2 [0; 0; 0] 10 100)
    by (cbn; lia).
  reflexivity.
Defined.

(** X8: for a generator all of whose state is its own, [get(first, last)]
    over a non-empty range leaves the stream in the state it was in, and
    the next [get()] returns once more the first value stored in the
    range. *)
Theorem igenstream_get_range_then_get {Own Ext A} (gen : rand (Own * Ext) A)
    (fuel first last : nat) (mem mem' : list A) (own : Own) (ext : Ext)
    (st' st1 : Own * Ext) (x : A) :
  self_contained gen →
  first < last → last ≤ length mem → last - first < fuel →
  igenstream_get gen (own, ext) = Some (x, st1) →
  igenstream_get_range gen fuel first last mem (own, ext) = Some (mem', st') →
  st' = (own, ext) ∧ mem' !! first = Some x
  ∧ igenstream_get gen st' = Some (x, st1).
Proof. apply igenstream_get_range_repeats. Qed.

Lemma self_contained_counter :
  self_contained (Ext := unit) (λ '(own, ext), Some (own, (S own, ext))).
Proof. by intros own ext x own' ext' [= _ _ <-]. Qed.

Lemma igenstream_get_range_then_get_witness :
  igenstream_get_range (λ '(own, ext), Some (own, (S own, ext)))
    3 0 2 [0; 0; 0] (5, tt) = Some ([5; 6; 0], (5, tt))
  ∧ igenstream_get (λ '(own, ext), Some (own, (S own, ext))) (5, tt)
    = Some (5, (6, tt)).
Proof.
  destruct (igenstream_get_range_then_get
    (λ '(own, ext), Some (own, (S own, ext))) 3 0 2 [0; 0; 0] [5; 6; 0]
    5 tt (5, tt) (6, tt) 5 self_contained_counter
    ltac:(lia) ltac:(cbn; lia) ltac:(lia) eq_refl eq_refl)
    as (_ & _ & Hget).
  split; [reflexivity | exact Hget].
Defined.

(** ** Equality, continued *)

(** [operator!=] of each distribution class: [value != x.value],
    [dist != x.dist], [!equal(x)], [&cont != &x.cont] and
    [dists != x.dists]; for the standard distributions and for a
    [std::tuple] it is the negation of [==]. *)
Fixpoint dist_neqb (x y : dist) : bool :=
  match x, y with
  | uniform_int_distribution _ a b, uniform_int_distribution _ a' b' =>
      negb (Z.eqb a a' && Z.eqb b b')
  | uniform_real_distribution _ a b, uniform_real_distribution _ a' b' =>
      negb (bool_decide (a = a') && bool_decide (b = b'))
  | bernoulli_distribution p, bernoulli_distribution p' =>
      negb (bool_decide (p = p'))
  | single_value_distribution value, single_value_distribution value' =>
      negb (value_eqb value value')
  | adapted_distribution _ dist, adapted_distribution _ dist' =>
      dist_neqb dist dist'
  | random_sequence_distribution _ size gen,
    random_sequence_distribution _ size' gen' =>
      negb (dist_eqb size size' && dist_eqb gen gen')
  | random_string_distribution _ size gen,
    random_string_distribution _ size' gen' =>
      negb (dist_eqb size size' && dist_eqb gen gen')
  | random_iterator_distribution cont _ _,
    random_iterator_distribution cont' _ _ =>
      negb (N.eqb cont cont')
  | random_tuple_generator dists, random_tuple_generator dists' =>
      negb (list_eqb dist_eqb dists dists')
  | _, _ => true
  end.

Lemma dist_neqb_negb (x y : dist) : dist_neqb x y = negb (dist_eqb x y).
Proof.
  revert y. induction x as [T a b | T a b | p | v | R d IH | S sz g _ _
    | S sz g _ _ | c a b | ds _] using dist_ind_nested;
    intros [T' a' b' | T' a' b' | p' | v' | R' d' | S' sz' g' | S' sz' g'
           | c' a' b' | ds']; cbn; first [apply IH | done].
Qed.

Lemma list_eqb_sym {A} (eqb : A → A → bool) (l : list A) :
  Forall (λ x, ∀ y, eqb x y = eqb y x) l →
  ∀ k, list_eqb eqb l k = list_eqb eqb k l.
Proof.
  induction 1 as [|x l Hx _ IH]; intros [|y k]; cbn; try done.
  by rewrite Hx, IH.
Qed.

Lemma list_eqb_trans {A} (eqb : A → A → bool) (l : list A) :
  Forall (λ x, ∀ y z, eqb x y = true → eqb y z = true → eqb x z = true) l →
  ∀ k m, list_eqb eqb l k = true → list_eqb eqb k m = true →
         list_eqb eqb l m = true.
Proof.
  induction 1 as [|x l Hx _ IH]; intros [|y k] [|z m]; cbn; try done.
  rewrite !andb_true_iff. intros [Hxy Hlk] [Hyz Hkm]. split.
  - by eapply Hx.
  - by eapply IH.
Qed.

Lemma dist_eqb_sym (x y : dist) : dist_eqb x y = dist_eqb y x.
Proof.
  revert y. induction x as [T a b | T a b | p | v | R d IH | S sz g IHs IHg
    | S sz g IHs IHg | c a b | ds IH] using dist_ind_nested;
    intros [T' a' b' | T' a' b' | p' | v' | R' d' | S' sz' g' | S' sz' g'
           | c' a' b' | ds']; cbn; try done.
  - by rewrite (Z.eqb_sym a), (Z.eqb_sym b).
  - f_equal; apply bool_decide_ext; split; congruence.
  - apply bool_decide_ext; split; congruence.
  - apply Bool.eq_true_iff_eq. rewrite !value_eqb_eq.
    split; by intros [-> ?].
  - by rewrite IHs, IHg.
  - by rewrite IHs, IHg.
  - apply N.eqb_sym.
  - by apply list_eqb_sym.
Qed.

Lemma dist_eqb_trans (x y z : dist) :
  dist_eqb x y = true → dist_eqb y z = true → dist_eqb x z = true.
Proof.
  revert y z. induction x as [T a b | T a b | p | v | R d IH
    | S sz g IHs IHg | S sz g IHs IHg | c a b | ds IH] using dist_ind_nested;
    intros [T' a' b' | T' a' b' | p' | v' | R' d' | S' sz' g' | S' sz' g'
           | c' a' b' | ds']
           [T'' a'' b'' | T'' a'' b'' | p'' | v'' | R'' d'' | S'' sz'' g''
           | S'' sz'' g'' | c'' a'' b'' | ds'']; cbn; try done.
  - rewrite !andb_true_iff, !Z.eqb_eq. intros [-> ->] [-> ->]. done.
  - rewrite !andb_true_iff, !bool_decide_eq_true. intros [-> ->] [-> ->].
    done.
  - rewrite !bool_decide_eq_true. congruence.
  - rewrite !value_eqb_eq. by intros [-> ?] [-> ?].
  - apply IH.
  - rewrite !andb_true_iff. intros [? ?] [? ?]. split.
    + by eapply IHs.
    + by eapply IHg.
  - rewrite !andb_true_iff. intros [? ?] [? ?]. split.
    + by eapply IHs.
    + by eapply IHg.
  - rewrite !N.eqb_eq. congruence.
  - by apply list_eqb_trans.
Qed.

(** X9: on the distributions of every class, the iterator-position
    distribution included, [==] is symmetric and transitive, and [!=]
    holds exactly when [==] does not. A distribution compares equal to
    itself exactly when no single-value distribution in it holds a NaN, so
    [==] is an equivalence relation on the distributions that hold no
    NaN, and is not reflexive on the others. *)
Theorem distributions_equality_equivalence (x y z : dist) :
  (dist_eqb x x = true ↔ nan_free x = true)
  ∧ dist_eqb x y = dist_eqb y x
  ∧ (dist_eqb x y = true → dist_eqb y z = true → dist_eqb x z = true)
  ∧ dist_neqb x y = negb (dist_eqb x y).
Proof.
  split; [apply dist_eqb_refl_iff|]. split; [apply dist_eqb_sym|].
  split; [apply dist_eqb_trans | apply dist_neqb_negb].
Qed.

(** ** The iterator-position distribution, continued *)

Lemma random_iterator_distribution_equal_iff (c1 c2 : container) :
  dist_eqb (random_iterator_distribution_ctor c1)
    (random_iterator_distribution_ctor c2) = true
  ↔ address c1 = address c2.
Proof. unfold random_iterator_distribution_ctor. cbn. apply N.eqb_eq. Qed.

(** X10: two iterator-position distributions compare equal exactly when
    they are over the same container object, and the bound on positions is
    taken when the distribution is built. A distribution built over a
    non-empty container compares equal to one built after the container
    has grown, and still returns positions of the container, all of them
    below the size the container had when the distribution was built. *)
Theorem random_iterator_distribution_stale_bound {std : Std_random}
    {order : Evaluation_order} (c c' : container) (eng : Engine) :
  address c' = address c → elements c ≠ [] →
  length (elements c) ≤ length (elements c') →
  (Z.of_nat (length (elements c)) < 2 ^ 64)%Z →
  dist_eqb (random_iterator_distribution_ctor c)
    (random_iterator_distribution_ctor c') = true
  ∧ (∀ c2, dist_eqb (random_iterator_distribution_ctor c)
             (random_iterator_distribution_ctor c2) = true
           ↔ address c = address c2)
  ∧ ∃ k eng',
      call (random_iterator_distribution_ctor c) eng
        = Some (V_iterator (address c') k, eng')
      ∧ (0 ≤ k < Z.of_nat (length (elements c)))%Z
      ∧ dereferenceable c' (V_iterator (address c') k).
Proof.
  intros Haddr Hne Hgrow Hsize. split.
  { unfold random_iterator_distribution_ctor. cbn. rewrite Haddr.
    apply N.eqb_refl. }
  split; [intros c2; apply random_iterator_distribution_equal_iff|].
  assert (0 < length (elements c)) as Hlen.
  { destruct (elements c); [done | cbn; lia]. }
  unfold random_iterator_distribution_ctor, size_wrap.
  rewrite Z.mod_small by lia. cbn [call].
  pose proof (uniform_int_range 0 (Z.of_nat (length (elements c)) - 1) eng
    ltac:(lia)) as Hk.
  destruct (uniform_int 0 _ eng) as [k eng']. cbn [fst] in Hk.
  exists k, eng'. rewrite Haddr. split; [reflexivity|]. split; [lia|].
  exists k. rewrite Haddr. split; [reflexivity | lia].
Qed.

Lemma random_iterator_distribution_stale_bound_witness :
  dist_eqb
    (random_iterator_distribution_ctor
       {| address := 5; elements := [V_int 7] |})
    (random_iterator_distribution_ctor
       {| address := 5; elements := [V_int 7; V_int 8] |}) = true.
Proof.
  exact (proj1 (random_iterator_distribution_stale_bound
    (std := minstd_rand) (order := left_to_right)
    {| address := 5; elements := [V_int 7] |}
    {| address := 5; elements := [V_int 7; V_int 8] |} 1%Z
    eq_refl ltac:(discriminate) ltac:(cbn; lia) eq_refl)).
Defined.

(** ** The default distribution facility, continued *)

(** The tuple types in [T] have two or three fields, its class types are
    sequences and not associative containers, and no other type occurs in
    it. *)
Fixpoint generable (T : type) : bool :=
  match T with
  | T_bool | T_integer _ | T_floating _ | basic_string _ => true
  | tuple Args =>
      (bool_decide (length Args = 2) || bool_decide (length Args = 3))
      && forallb generable Args
  | T_class s a V => s && negb a && generable V
  | T_other _ => false
  end.

(** The values in the range of the default distribution of [T]. *)
Fixpoint default_value (T : type) (v : value) {struct T} : Prop :=
  match T with
  | T_bool => ∃ b, v = V_bool b
  | T_integer i => ∃ z, v = V_int z ∧ (0 ≤ z ≤ integer_max i)%Z
  | T_floating _ => ∃ q, v = V_real q
  | basic_string _ =>
      ∃ xs, v = V_seq xs ∧ length xs ≤ 32
            ∧ Forall (λ x, ∃ z, x = V_int z ∧ (33 ≤ z ≤ 126)%Z) xs
  | tuple Args =>
      ∃ xs, v = V_tuple xs
            ∧ (fix components Args xs : Prop :=
                 match Args, xs with
                 | [], [] => True
                 | T :: Args', x :: xs' =>
                     default_value T x ∧ components Args' xs'
                 | _, _ => False
                 end) Args xs
  | T_class _ _ V =>
      ∃ xs, v = V_seq xs ∧ length xs ≤ 32 ∧ Forall (default_value V) xs
  | T_other _ => False
  end.

Section defaults.
Context {std : Std_random} {order : Evaluation_order}.

Lemma call_uniform_int_total T a b :
  (a ≤ b)%Z →
  ∀ e, ∃ x e',
    call (uniform_int_distribution T a b) e = Some (x, e')
    ∧ ∃ z, x = V_int z ∧ (a ≤ z ≤ b)%Z.
Proof.
  intros Hab e. rewrite call_uniform_int. eexists _, _. split; [done|].
  eexists. split; [done|]. by apply uniform_int_range.
Qed.

(** A sequence distribution whose size draws are within [0, 32] and whose
    element draws never fail. *)
Lemma random_sequence_call_total Seq V (size gen : rand Engine value)
    (P : value → Prop) eng :
  Value_type Seq = Some V →
  (∀ e, ∃ x e', size e = Some (x, e') ∧ ∃ z, x = V_int z ∧ (0 ≤ z ≤ 32)%Z) →
  (∀ e, ∃ x e', gen e = Some (x, e') ∧ P x) →
  ∃ xs eng',
    random_sequence_call Seq size gen eng = Some (V_seq xs, eng')
    ∧ length xs ≤ 32 ∧ Forall P xs.
Proof.
  intros HV Hsize Hgen. rewrite (random_sequence_call_draws _ V) by done.
  unfold rand_bind at 1.
  destruct (Hsize eng) as (x & e1 & -> & z & -> & Hz). cbn [to_size].
  rewrite decide_True by lia.
  destruct (draws_total gen P (Z.to_nat z) e1 Hgen) as (xs & e2 & Hxs & Hall).
  exists xs, e2. unfold rand_bind, rand_ret. rewrite Hxs.
  split; [done|]. split; [|done]. apply draws_length in Hxs. lia.
Qed.

Lemma integer_max_nonneg (i : integer_type) : (0 ≤ integer_max i)%Z.
Proof. destruct i; vm_compute; discriminate. Qed.

Lemma default_distribution_generable (T : type) :
  generable T = true →
  ∃ d, default_distribution T = Some d
       ∧ ∀ eng, ∃ v eng', call d eng = Some (v, eng') ∧ default_value T v.
Proof.
  induction T as [| i | f | C _ | Args IH | s a V IH | n]
    using type_ind_nested; intros Hgen.
  - eexists. split; [reflexivity|]. intros eng. cbn.
    destruct (bernoulli _ eng) as [b eng'].
    exists (V_bool b), eng'. split; [done | by exists b].
  - eexists. split; [reflexivity|]. intros eng.
    destruct (call_uniform_int_total (T_integer i) 0 (integer_max i)
      (integer_max_nonneg i) eng) as (x & e' & Hx & z & -> & Hz).
    exists (V_int z), e'. split; [exact Hx|]. by exists z.
  - eexists. split; [reflexivity|]. intros eng. cbn.
    destruct (uniform_real _ _ eng) as [q eng'].
    exists (V_real q), eng'. split; [done | by exists q].
  - eexists. split; [reflexivity|]. intros eng.
    unfold random_string_distribution_default. rewrite call_random_string.
    destruct (random_sequence_call_total (basic_string C) C
      (call (uniform_int_distribution (Size_type (basic_string C)) 0 32))
      (call (uniform_int_distribution C 33 126))
      (λ x, ∃ z, x = V_int z ∧ (33 ≤ z ≤ 126)%Z) eng eq_refl)
      as (xs & eng' & Hcall & Hlen & Hall).
    { apply call_uniform_int_total. lia. }
    { apply call_uniform_int_total. lia. }
    exists (V_seq xs), eng'. split; [done|]. by exists xs.
  - cbn [generable] in Hgen. apply andb_true_iff in Hgen as [Hlen Hall].
    destruct Args as [|T0 [|T1 [|T2 [|T3 Args]]]]; try done.
    + cbn in Hall. apply andb_true_iff in Hall as [H0 Hall].
      apply andb_true_iff in Hall as [H1 _].
      inversion_clear IH as [|? ? IH0 IH']. inversion_clear IH' as [|? ? IH1 _].
      destruct (IH0 H0) as (d0 & Hd0 & Hc0).
      destruct (IH1 H1) as (d1 & Hd1 & Hc1).
      exists (random_tuple_generator [d0; d1]). split.
      { apply default_distribution_tuple; [done|]. by repeat constructor. }
      intros eng. rewrite call_random_tuple_2. unfold generate_D1_D2.
      destruct (Hc0 eng) as (x0 & e0 & Hx0 & Hv0).
      destruct (Hc1 e0) as (x1 & e1 & Hx1 & Hv1).
      exists (V_tuple [x0; x1]), e1. unfold rand_bind, rand_ret.
      rewrite Hx0, Hx1. split; [done|]. exists [x0; x1]. by repeat split.
    + cbn in Hall. apply andb_true_iff in Hall as [H0 Hall].
      apply andb_true_iff in Hall as [H1 Hall].
      apply andb_true_iff in Hall as [H2 _].
      inversion_clear IH as [|? ? IH0 IH']. inversion_clear IH' as [|? ? IH1 IH].
      inversion_clear IH as [|? ? IH2 _].
      destruct (IH0 H0) as (d0 & Hd0 & Hc0).
      destruct (IH1 H1) as (d1 & Hd1 & Hc1).
      destruct (IH2 H2) as (d2 & Hd2 & Hc2).
      exists (random_tuple_generator [d0; d1; d2]). split.
      { apply default_distribution_tuple; [done|]. by repeat constructor. }
      intros eng. rewrite call_random_tuple_3.
      destruct (generate_D1_D2_D3_total (call d0) (call d1) (call d2) eng)
        as [[v eng'] Hv].
      { intros e. destruct (Hc0 e) as (? & ? & -> & _). by eexists. }
      { intros e. destruct (Hc1 e) as (? & ? & -> & _). by eexists. }
      { intros e. destruct (Hc2 e) as (? & ? & -> & _). by eexists. }
      exists v, eng'. split; [done|].
      apply generate_D1_D2_D3_components in Hv
        as (x0 & x1 & x2 & -> & (a0 & b0 & Hx0) & (a1 & b1 & Hx1)
            & (a2 & b2 & Hx2)).
      destruct (Hc0 a0) as (? & ? & Hy0 & Hv0). rewrite Hx0 in Hy0.
      destruct (Hc1 a1) as (? & ? & Hy1 & Hv1). rewrite Hx1 in Hy1.
      destruct (Hc2 a2) as (? & ? & Hy2 & Hv2). rewrite Hx2 in Hy2.
      injection Hy0 as <- _. injection Hy1 as <- _. injection Hy2 as <- _.
      exists [x0; x1; x2]. by repeat split.
  - cbn [generable] in Hgen. apply andb_true_iff in Hgen as [Hsa HV].
    apply andb_true_iff in Hsa as [-> Ha]. apply negb_true_iff in Ha as ->.
    destruct (IH HV) as (d & Hd & Hc).
    exists (random_sequence_distribution_default (T_class true false V) d).
    split.
    { rewrite default_distribution_deduced by done.
      by apply (deduced_distribution_sequence _ V). }
    intros eng. unfold random_sequence_distribution_default. cbn [call].
    destruct (random_sequence_call_total (T_class true false V) V
      (call (uniform_int_distribution
               (Size_type (T_class true false V)) 0 32))
      (call d) (default_value V) eng eq_refl)
      as (xs & eng' & Hcall & Hlen & Hall).
    { apply call_uniform_int_total. lia. }
    { exact Hc. }
    exists (V_seq xs), eng'. split; [done|]. by exists xs.
  - done.
Qed.

Lemma default_distribution_position_free (T : type) (d : dist) :
  default_distribution T = Some d → position_free d = true.
Proof.
  revert d. induction T as [| i | f | C _ | Args IH | s a V IH | n]
    using type_ind_nested; intros d.
  - by intros [= <-].
  - by intros [= <-].
  - by intros [= <-].
  - by intros [= <-].
  - change (default_distribution (tuple Args)) with
      (match mapM default_distribution Args with
       | Some dists => random_tuple_generator_default dists
       | None => None
       end).
    destruct (mapM default_distribution Args) as [dists|] eqn:Hmap; [|done].
    apply mapM_Some in Hmap. destruct dists as [|d0 dists]; [done|].
    intros [= <-]. cbn [position_free].
    revert IH. revert Hmap. generalize (d0 :: dists) as ds.
    induction 1 as [|T d' Args ds HTd _ IHall]; intros Hall; [done|].
    inversion_clear Hall as [|? ? HT Hall']. cbn.
    by rewrite (HT d' HTd), IHall.
  - rewrite default_distribution_deduced by done.
    unfold deduced_distribution, traits.deduce_distribution,
      traits.udt_distribution. cbn.
    destruct s, a; try done.
    destruct (default_distribution V) as [g|] eqn:Hg; [|done].
    intros [= <-]. cbn. by rewrite (IH g).
  - done.
Qed.
End defaults.

(** X11: for a type built from [bool], integer and floating-point types,
    strings, sequences and tuples of two or three fields, the registry has
    a default distribution; every call of it returns a value, and the
    value has the shape of the type: integers between 0 and the largest
    value of their type, strings and sequences of at most 32 elements,
    characters between 33 and 126, tuples field by field. *)
Theorem default_distribution_values {std : Std_random}
    {order : Evaluation_order} (T : type) :
  generable T = true →
  ∃ d, default_distribution T = Some d
       ∧ ∀ eng, ∃ v eng', call d eng = Some (v, eng') ∧ default_value T v.
Proof. apply default_distribution_generable. Qed.

Lemma default_distribution_values_witness :
  ∃ d, default_distribution
         (tuple [T_class true false (basic_string (T_integer char));
                 T_integer int; T_bool]) = Some d
       ∧ ∀ eng, ∃ v eng',
           call (std := minstd_rand) (order := right_to_left) d eng
             = Some (v, eng')
           ∧ default_value
               (tuple [T_class true false (basic_string (T_integer char));
                       T_integer int; T_bool]) v.
Proof.
  exact (default_distribution_values (std := minstd_rand)
    (order := right_to_left)
    (tuple [T_class true false (basic_string (T_integer char));
            T_integer int; T_bool]) eq_refl).
Defined.

(** X12: no default distribution has an iterator-position distribution in
    it; so a default distribution compares equal to a distribution of its
    own type exactly when the two have the same parameters. *)
Theorem default_distribution_structural (T : type) (d d' : dist) :
  default_distribution T = Some d →
  position_free d = true
  ∧ (type_of d = type_of d' → (dist_eqb d d' = true ↔ d = d')).
Proof.
  intros Hd. pose proof (default_distribution_position_free T d Hd) as Hfree.
  split; [done|]. intros Hty.
  apply dist_eqb_eq; [done | done |].
  by apply (default_distribution_nan_free T).
Qed.

Lemma default_distribution_structural_witness :
  position_free
    (random_sequence_distribution (T_class true false (T_integer int))
       (uniform_int_distribution size_t 0 32)
       (uniform_int_distribution (T_integer int) 0 2147483647)) = true.
Proof.
  exact (proj1 (default_distribution_structural
    (T_class true false (T_integer int))
    (random_sequence_distribution (T_class true false (T_integer int))
       (uniform_int_distribution size_t 0 32)
       (uniform_int_distribution (T_integer int) 0 2147483647))
    (uniform_int_distribution size_t 0 32) eq_refl)).
Defined.

(** ** Compositions *)

Section compositions.
Context {std : Std_random} {order : Evaluation_order}.

(** [adapted_distribution() : dist(default_distribution<wrapped_type>())],
    for a wrapped distribution whose result type is [W]. *)
Definition adapted_distribution_default (W Result : type) : option dist :=
  match default_distribution W with
  | Some d => Some (adapted_distribution Result d)
  | None => None
  end.

(** A random variable holding its engine and distribution by value, as the
    generating function of a stream: all its state is its own. *)
Definition random_variable_generator
    : rand (random_variable * unit) value :=
  λ '(v, ext),
    match random_variable_call v with
    | Some (x, v') => Some (x, (v', ext))
    | None => None
    end.

Lemma draws_random_variable_generator n (v : random_variable) :
  draws n random_variable_generator (v, tt)
  = match draws n random_variable_call v with
    | Some (xs, v') => Some (xs, (v', tt))
    | None => None
    end.
Proof.
  revert v. induction n as [|n IH]; intros v; [done|].
  cbn [draws]. unfold rand_bind, rand_ret. cbn.
  destruct (random_variable_call v) as [[x v1]|]; [|done]. rewrite IH.
  by destruct (draws n random_variable_call v1) as [[xs v2]|].
Qed.
End compositions.

(** X14: a default-constructed adapted distribution over a wrapped type
    that the registry can generate wraps the default distribution of that
    type: every call of it returns an object of the result type built from
    one default value of the wrapped type. *)
Theorem adapted_distribution_default_values {std : Std_random}
    {order : Evaluation_order} (W Result : type) :
  generable W = true →
  ∃ d, default_distribution W = Some d
       ∧ adapted_distribution_default W Result
           = Some (adapted_distribution Result d)
       ∧ ∀ eng, ∃ x eng',
           call (adapted_distribution Result d) eng
             = Some (V_object Result [x], eng')
           ∧ call d eng = Some (x, eng')
           ∧ default_value W x.
Proof.
  intros HW. destruct (default_distribution_generable W HW) as (d & Hd & Hc).
  exists d. split; [done|]. split.
  { unfold adapted_distribution_default. by rewrite Hd. }
  intros eng. destruct (Hc eng) as (x & eng' & Hx & Hv).
  exists x, eng'. cbn [call]. unfold rand_bind, rand_ret. by rewrite Hx.
Qed.

Lemma adapted_distribution_default_values_witness :
  adapted_distribution_default (T_integer int) (T_other 0)
  = Some (adapted_distribution (T_other 0)
            (uniform_int_distribution (T_integer int) 0 2147483647)).
Proof.
  destruct (adapted_distribution_default_values (std := minstd_rand)
    (order := left_to_right) (T_integer int) (T_other 0) eq_refl)
    as (d & Hd & Hdefault & _).
  injection Hd as <-. exact Hdefault.
Defined.

(** X15: a stream over a random variable that holds its engine by value:
    [get(first, last)] stores the values of the next draws of the
    distribution from the engine, and the stream still holds the random
    variable with the engine it had, the draws being made on a copy. *)
Theorem igenstream_random_variable_range {std : Std_random}
    {order : Evaluation_order} (v : random_variable)
    (fuel first last : nat) (mem : list value) :
  first ≤ last ≤ length mem → last - first < fuel →
  igenstream_get_range random_variable_generator fuel first last mem (v, tt)
  = match draws (last - first) (call (distribution v)) (engine v) with
    | Some (xs, _) =>
        Some (take first mem ++ xs ++ drop last mem, (v, tt))
    | None => None
    end.
Proof.
  intros Hrange Hfuel. rewrite igenstream_get_range_draws by done.
  rewrite draws_random_variable_generator, draws_random_variable.
  by destruct (draws _ (call (distribution v)) (engine v)) as [[xs e]|].
Qed.

Lemma igenstream_random_variable_range_witness :
  igenstream_get_range
    (random_variable_generator (std := minstd_rand) (order := left_to_right))
    3 0 2 [V_int 0; V_int 0]
    (make_random_by_value 12345%Z
       (uniform_int_distribution (T_integer int) 0 9), tt)
  = Some ([V_int 5; V_int 7],
          (make_random_by_value 12345%Z
             (uniform_int_distribution (T_integer int) 0 9), tt)).
Proof.
  rewrite (igenstream_random_variable_range (std := minstd_rand)
    (order := left_to_right) _ 3 0 2 [V_int 0; V_int 0])
    by (cbn; lia).
  reflexivity.
Defined.
